(** * Games-Detector: the Steam appinfo decoder and the filename sanitiser

    A shallow embedding of [read_appinfo] (src/steam_detector.py) and of
    [get_valid_file_name] (src/steam_detector.py, src/epic_detector.py,
    src/gog_detector.py, three identical copies), with the properties of
    the design document checked against them.

    Python values are modelled as follows.
    - [bytes] objects are lists of [byte]; [int] is [Z].
    - [str] objects are lists of Unicode code points ([Z]).
    - The binary file object returned by [open(path, "rb")] is a pair of
      the file's contents and the current position.
    - A computation either returns, raises an exception, or runs out of
      fuel; the [while] loops of the source take a fuel argument, so a
      loop that never exits is the one that runs out of every fuel. *)

From Stdlib Require Import ZArith Lia List.
From Stdlib Require Import Strings.Byte Strings.String DecimalString.
From Equations Require Import Equations.
From Equations.Prop Require Import Logic.
From stdpp Require Import base decidable option list gmap.

Local Open Scope Z_scope.

(** ** Python values *)

Abbreviation bytes := (list byte).
Abbreviation str := (list Z).

#[global] Instance byte_eq_dec : EqDecision byte := Byte.byte_eq_dec.

(** [ord b]: the integer value of a byte. *)
Definition ord (b : byte) : Z := Z.of_N (Byte.to_N b).

(** A [bytes] literal, [b"..."] in the source. *)
Definition lit (s : string) : bytes := list_byte_of_string s.

(** A [str] literal of ASCII characters. *)
Definition text (s : string) : str := ord <$> list_byte_of_string s.

(** [s[i:j]] for [0 <= i]; the slice is cut at the end of [s]. *)
Definition slice {A} (s : list A) (i j : Z) : list A :=
  take (Z.to_nat (j - i)) (drop (Z.to_nat i) s).

(** [s.startswith(prefix)]. *)
Fixpoint startswith {A} `{EqDecision A} (s prefix : list A) {struct prefix}
  : bool :=
  match prefix, s with
  | [], _ => true
  | _ :: _, [] => false
  | p :: prefix', c :: s' => bool_decide (c = p) && startswith s' prefix'
  end.

(** [s.index(sub)], with [None] where Python raises [ValueError]; the
    source calls it only under the guard [sub in s], which is
    [find_index s sub <> None]. *)
Fixpoint find_index (s sub : bytes) : option Z :=
  if startswith s sub then Some 0
  else match s with
       | [] => None
       | _ :: s' => Z.succ <$> find_index s' sub
       end.

(** ** Outcomes of a computation *)

Inductive exn : Set :=
| SyntaxError
| StructError
| ValueError
| UnicodeDecodeError.

Inductive outcome (A : Type) : Type :=
| Ret (a : A)
| Raise (e : exn)
| OutOfFuel.
Arguments Ret {A} a.
Arguments Raise {A} e.
Arguments OutOfFuel {A}.

#[global] Instance outcome_ret : MRet outcome := @Ret.
#[global] Instance outcome_bind : MBind outcome := λ A B k m,
  match m with
  | Ret a => k a
  | Raise e => Raise e
  | OutOfFuel => OutOfFuel
  end.

(** ** [struct.Struct('<I')] and [struct.Struct('<Q')] *)

(** Little-endian value of a byte string. *)
Fixpoint le_int (s : bytes) : Z :=
  match s with
  | [] => 0
  | c :: s' => ord c + 256 * le_int s'
  end.

(** [Struct.unpack(s)[0]]: [struct.error] unless [s] has the format's size. *)
Definition unpack (size : nat) (s : bytes) : outcome Z :=
  if bool_decide (length s = size) then Ret (le_int s) else Raise StructError.

Definition int32 : bytes → outcome Z := unpack 4.
Definition int64 : bytes → outcome Z := unpack 8.

(** ** [bytes.decode()]: strict UTF-8 *)

Definition between (lo hi c : Z) : bool := (lo <=? c) && (c <=? hi).
Definition continuation (c : Z) : bool := between 128 191 c.

Fixpoint utf8_decode (s : bytes) : option str :=
  match s with
  | [] => Some []
  | b0 :: s1 =>
    let c0 := ord b0 in
    if c0 <? 128 then cons c0 <$> utf8_decode s1
    else if between 194 223 c0 then
      match s1 with
      | b1 :: s2 =>
        let c1 := ord b1 in
        if continuation c1
        then cons ((c0 - 192) * 64 + (c1 - 128)) <$> utf8_decode s2
        else None
      | _ => None
      end
    else if between 224 239 c0 then
      match s1 with
      | b1 :: b2 :: s3 =>
        let c1 := ord b1 in
        let c2 := ord b2 in
        if between (if c0 =? 224 then 160 else 128)
                   (if c0 =? 237 then 159 else 191) c1
           && continuation c2
        then cons ((c0 - 224) * 4096 + (c1 - 128) * 64 + (c2 - 128))
               <$> utf8_decode s3
        else None
      | _ => None
      end
    else if between 240 244 c0 then
      match s1 with
      | b1 :: b2 :: b3 :: s4 =>
        let c1 := ord b1 in
        let c2 := ord b2 in
        let c3 := ord b3 in
        if between (if c0 =? 240 then 144 else 128)
                   (if c0 =? 244 then 143 else 191) c1
           && continuation c2 && continuation c3
        then cons ((c0 - 240) * 262144 + (c1 - 128) * 4096
                   + (c2 - 128) * 64 + (c3 - 128))
               <$> utf8_decode s4
        else None
      | _ => None
      end
    else None
  end.

(** [bytes.decode(s)]: [UnicodeDecodeError] on invalid UTF-8. *)
Definition decode (s : bytes) : outcome str :=
  match utf8_decode s with
  | Some t => Ret t
  | None => Raise UnicodeDecodeError
  end.

(** ** The binary file object *)

Record file : Type := File { contents : bytes; tell : Z }.

(** [open(path, "rb")] on a file holding [buf]. *)
Definition open (buf : bytes) : file := File buf 0.

(** [f.read(n)]: the next [n] bytes, fewer at the end of the file (no
    error); [n = -1] reads to the end of the file; a buffered reader
    refuses [n < -1] with [ValueError]. *)
Definition read (f : file) (n : Z) : outcome (bytes * file) :=
  if n <? -1 then Raise ValueError
  else
    let rest := drop (Z.to_nat (tell f)) (contents f) in
    let out := if n =? -1 then rest else take (Z.to_nat n) rest in
    Ret (out, File (contents f) (tell f + Z.of_nat (length out))).

(** [f.seek(target)]: any position from 0 on is accepted, also past the
    end of the file; a target that is negative or does not fit a signed
    64-bit offset raises [ValueError]. *)
Definition seek (f : file) (target : Z) : outcome file :=
  if (target <? 0) || (2 ^ 63 <=? target) then Raise ValueError
  else Ret (File (contents f) target).

(** [int32.unpack(f.read(4))[0]] and [int64.unpack(f.read(8))[0]]. *)
Definition read_int32 (f : file) : outcome (Z * file) :=
  '(s, f) ← read f 4; v ← int32 s; Ret (v, f).
Definition read_int64 (f : file) : outcome (Z * file) :=
  '(s, f) ← read f 8; v ← int64 s; Ret (v, f).

(** ** The record built for each application *)

(** The dictionary [app] of the source, one field per key. *)
Record app : Type := App {
  appid : Z;
  info_state : Z;
  last_updated : Z;
  picsToken : Z;
  sha1Text : bytes;
  change_number : Z;
  sha1Binary : bytes;
  name : option str;
  type : option str;
  icon_hash : option str;
  binary_content : bytes
}.

(** [app["name"] = v], [app["type"] = v] and [app["icon_hash"] = v]. *)
Definition set_name (a : app) (v : str) : app :=
  App (appid a) (info_state a) (last_updated a) (picsToken a) (sha1Text a)
      (change_number a) (sha1Binary a) (Some v) (type a) (icon_hash a)
      (binary_content a).
Definition set_type (a : app) (v : str) : app :=
  App (appid a) (info_state a) (last_updated a) (picsToken a) (sha1Text a)
      (change_number a) (sha1Binary a) (name a) (Some v) (icon_hash a)
      (binary_content a).
Definition set_icon_hash (a : app) (v : str) : app :=
  App (appid a) (info_state a) (last_updated a) (picsToken a) (sha1Text a)
      (change_number a) (sha1Binary a) (name a) (type a) (Some v)
      (binary_content a).

(** ** [read_appinfo] *)

Definition magic_signature : bytes := [x29; x44; x56; x07].  (* b")DV\x07" *)
Definition name_marker : bytes := [x01; x04; x00; x00; x00].
Definition type_marker : bytes := [x01; x05; x00; x00; x00].
Definition icon_marker : bytes := [x01; x58; x01; x00; x00]. (* b"\x01X\x01\x00\x00" *)

(** The list the decoded type is checked against (line 97). *)
Definition item_types : list bytes :=
  [lit "Game"; lit "DLC"; lit "Demo"; lit "Config"; lit "Beta"; lit "Tool";
   lit "ownersonly"; lit "Application"].

(** What the header phase (lines 48 to 56) computes. *)
Record header : Type := Header {
  universe : Z;
  string_table_offset : Z;
  string_count : Z
}.

Definition read_header (f : file) : outcome (header * file) :=
  '(magic, f) ← read f 4;
  if bool_decide (magic ≠ magic_signature) then Raise SyntaxError
  else
    '(universe, f) ← read_int32 f;
    '(string_table_offset, f) ← read_int64 f;
    let previous_offset := tell f in
    f ← seek f (previous_offset + string_table_offset);
    '(string_count, f) ← read_int32 f;
    f ← seek f previous_offset;
    Ret (Header universe string_table_offset string_count, f).

(** Lines 64 to 79: the size, the fixed fields and the payload of one
    application, read after its [appid]. *)
Definition read_app (f : file) (appid : Z) : outcome (app * file) :=
  '(size, f) ← read_int32 f;
  let end_ := tell f + size in
  '(info_state, f) ← read_int32 f;
  '(last_updated, f) ← read_int32 f;
  '(picsToken, f) ← read_int64 f;
  '(sha1Text, f) ← read f 20;
  '(change_number, f) ← read_int32 f;
  '(sha1Binary, f) ← read f 20;
  '(binary_content, f) ← read f (end_ - tell f);
  Ret (App appid info_state last_updated picsToken sha1Text change_number
           sha1Binary None None None binary_content, f).

(** The loop of lines 85 to 87 and 94 to 96:
    [while content[index:index + 1] != b"\x00": acc += content[index:index + 1]; index += 1]. *)
Fixpoint scan (fuel : nat) (content : bytes) (index : Z) (acc : bytes)
  : outcome bytes :=
  match fuel with
  | O => OutOfFuel
  | S fuel' =>
    if bool_decide (slice content index (index + 1) ≠ [x00])
    then scan fuel' content (index + 1) (acc ++ slice content index (index + 1))
    else Ret acc
  end.

(** Lines 82 to 88. *)
Definition extract_name (fuel : nat) (a : app) : outcome app :=
  match find_index (binary_content a) name_marker with
  | Some i =>
    name ← scan fuel (binary_content a) (i + 5) [];
    v ← decode name;
    Ret (set_name a v)
  | None => Ret a
  end.

(** Lines 91 to 98. *)
Definition extract_type (fuel : nat) (a : app) : outcome app :=
  match find_index (binary_content a) type_marker with
  | Some i =>
    obj_type ← scan fuel (binary_content a) (i + 5) [];
    if bool_decide (obj_type ∈ item_types)
    then v ← decode obj_type; Ret (set_type a v)
    else Ret a
  | None => Ret a
  end.

(** Lines 101 to 103. *)
Definition extract_icon_hash (a : app) : outcome app :=
  match find_index (binary_content a) icon_marker with
  | Some i =>
    let index := i + 5 in
    v ← decode (slice (binary_content a) index (index + 40));
    Ret (set_icon_hash a v)
  | None => Ret a
  end.

(** Lines 81 to 103: the three searches, in the order of the source. *)
Definition extract_fields (n : nat) (a : app) : outcome app :=
  a ← extract_name n a;
  a ← extract_type n a;
  extract_icon_hash a.

(** The loop of lines 59 to 105; [n] is the fuel of the inner loops. *)
Fixpoint read_apps (n fuel : nat) (f : file) (return_dict : gmap Z app)
  : outcome (gmap Z app) :=
  match fuel with
  | O => OutOfFuel
  | S fuel' =>
    '(appid, f) ← read_int32 f;
    if bool_decide (appid = 0) then Ret return_dict
    else
      '(a, f) ← read_app f appid;
      a ← extract_fields n a;
      read_apps n fuel' f (<[appid := a]> return_dict)
  end.

(** [read_appinfo(path)] for a file at [path] that holds [buf]. *)
Definition read_appinfo (fuel : nat) (buf : bytes) : outcome (gmap Z app) :=
  '(_, f) ← read_header (open buf);
  read_apps fuel fuel f ∅.

(** ** [get_valid_file_name] *)

(** [s.endswith(suffix)], [s.removeprefix(prefix)], [s.removesuffix(suffix)]
    and [s.replace(old, new)] for one-character [old] and [new]. *)
Definition endswith (s suffix : str) : bool :=
  startswith (reverse s) (reverse suffix).
Definition removeprefix (s prefix : str) : str :=
  if startswith s prefix then drop (length prefix) s else s.
Definition removesuffix (s suffix : str) : str :=
  if endswith s suffix then take (length s - length suffix) s else s.
Definition replace (s : str) (old new : Z) : str :=
  (λ c, if bool_decide (c = old) then new else c) <$> s.

Definition space : Z := 32.
(** The nine characters of line 116; 34 is the double quote. *)
Definition forbidden_chars : str := text "/\:*?" ++ [34] ++ text "<>|".

(** Lines 118 to 120. *)
Definition remove_forbidden (filename : str) : str :=
  foldl (λ filename char,
           if bool_decide (char ∈ filename) then replace filename char space
           else filename)
        filename forbidden_chars.

(** Lines 123 and 124. *)
Equations? strip_start (filename : str) : str by wf (length filename) lt :=
  strip_start filename with inspect (startswith filename [space]) := {
    | exist _ true H => strip_start (removeprefix filename [space]);
    | exist _ false _ => filename }.
Proof.
  destruct filename as [|c rest]; [discriminate|].
  unfold removeprefix. cbn [startswith] in *. rewrite H, length_drop. simpl. lia.
Qed.

(** Lines 125 and 126. *)
Equations? strip_end (filename : str) : str by wf (length filename) lt :=
  strip_end filename with inspect (endswith filename [space]) := {
    | exist _ true H => strip_end (removesuffix filename [space]);
    | exist _ false _ => filename }.
Proof.
  unfold removesuffix. rewrite H.
  destruct filename; [discriminate|]. rewrite length_take. simpl. lia.
Qed.

Definition get_valid_file_name (filename : str) : str :=
  strip_end (strip_start (remove_forbidden filename)).

(** ** [read_steam_path] and [create_games_shortcut]

    The two functions act on the registry, the file system and the
    console.  What they find there is a [system]; what they do there is
    a list of [event]s, in the order of the calls. *)

Inductive hive : Set := HKEY_LOCAL_MACHINE | HKEY_CURRENT_USER.

(** The outcome of [winreg.OpenKey] and of [winreg.QueryValueEx]: a
    value, [FileNotFoundError], or another exception, with its text. *)
Inductive lookup (A : Type) : Type :=
| Found (a : A)
| FileNotFoundError
| OtherException (e : str).
Arguments Found {A} a.
Arguments FileNotFoundError {A}.
Arguments OtherException {A} e.

(** An exception of the shortcut functions: [TypeError], or what
    writing the file raised. *)
Inductive failure : Type :=
| TypeError
| WriteError (e : str).

(** The registry and the file system: the registry functions, with the
    data of a value taken to be a string; [os.path.isdir],
    [os.path.isfile], [os.path.join(a, *p)] and [os.path.normpath]; and
    what [open(path, "w", encoding="utf-8")] followed by [f.write(text)]
    raises, if anything. *)
Record system : Type := System {
  open_key : hive → str → lookup unit;
  query_value : hive → str → str → lookup str;
  isdir : str → bool;
  isfile : str → bool;
  join : str → list str → str;
  normpath : str → str;
  write_raises : str → str → option failure
}.

(** A call of [print]; and the run of the [with open(path, "w", ...)]
    block that writes [text], whether [open] or [f.write] raises or not:
    the file is written when they raise nothing. *)
Inductive event : Type :=
| Print (args : list str)
| WriteFile (path text : str).

Inductive result (A : Type) : Type :=
| Returns (a : A)
| Raises (e : failure).
Arguments Returns {A} a.
Arguments Raises {A} e.

Record io (A : Type) : Type := IO { events : list event; outcome_of : result A }.
Arguments IO {A} events outcome_of.
Arguments events {A} _.
Arguments outcome_of {A} _.

#[global] Instance io_ret : MRet io := λ A a, IO [] (Returns a).
#[global] Instance io_bind : MBind io := λ A B k m,
  match outcome_of m with
  | Returns a => IO (events m ++ events (k a)) (outcome_of (k a))
  | Raises e => IO (events m) (Raises e)
  end.

Definition print (args : list str) : io unit := IO [Print args] (Returns ()).
Definition raise {A} (e : failure) : io A := IO [] (Raises e).
Definition write (sys : system) (path text : str) : io unit :=
  IO [WriteFile path text]
     (match write_raises sys path text with
      | Some e => Raises e
      | None => Returns ()
      end).

(** Lines 130 to 153; without a [return], the function returns [None]. *)
Definition read_steam_path (sys : system) : io (option str) :=
  let key := text "SOFTWARE\WOW6432Node\Valve\Steam" in
  match open_key sys HKEY_LOCAL_MACHINE key with
  | FileNotFoundError => print [text "incorrect base key"];; mret None
  | OtherException e => print [text "error: "; e];; mret None
  | Found _ =>
    match query_value sys HKEY_LOCAL_MACHINE key (text "InstallPath") with
    | FileNotFoundError => print [text "incorrect key"];; mret None
    | OtherException e => print [e];; mret None
    | Found path =>
      if isdir sys path then mret (Some path)
      else print [text "path does not exist"];; mret None
    end
  end.

(** [str(n)] for an [int]: its decimal digits. *)
Definition str_of_int (n : Z) : str :=
  text (NilZero.string_of_int (Z.to_int n)).

Definition newline : str := [10].

(** Lines 242 to 248. *)
Definition shortcut_text (url icon_path : str) : str :=
  text "[{000214A0-0000-0000-C000-000000000046}]" ++ newline
  ++ text "Prop3=19,0" ++ newline
  ++ text "[InternetShortcut]" ++ newline
  ++ text "IDList=" ++ newline
  ++ text "IconIndex=0" ++ newline
  ++ text "URL=" ++ url ++ newline
  ++ text "IconFile=" ++ icon_path ++ newline.

(** Lines 219 to 254.  [None + ".ico"], [os.path.join(None, ...)] and
    [char in None] are [TypeError]s. *)
Definition create_games_shortcut (sys : system) (appid : Z)
    (appinfo_dict : gmap Z app) (output_dir : str) : io (option str) :=
  match appinfo_dict !! appid with
  | None =>
    print [text "The given appid is not present in the given appinfo_dict"];;
    mret None
  | Some a =>
    if isdir sys output_dir then
      let url := text "steam://rungameid/" ++ str_of_int appid in
      steam ← read_steam_path sys;
      icon ← match icon_hash a with
             | Some h => mret (h ++ text ".ico")
             | None => raise TypeError
             end;
      path ← match steam with
             | Some steam => mret (normpath sys (join sys steam [text "steam/games"; icon]))
             | None => raise TypeError
             end;
      let icon_path := if isfile sys path then path else [] in
      file_name ← match name a with
                  | Some n => mret (get_valid_file_name n ++ text ".url")
                  | None => raise TypeError
                  end;
      let final_path := normpath sys (join sys output_dir [file_name]) in
      write sys final_path (shortcut_text url icon_path);;
      mret (Some final_path)
    else
      print [text "the given output dir does not exist"];; mret None
  end.

(** * The vocabulary of the statements

    Definitions the properties below are stated with: the layout of the
    file, occurrences of a marker, the fields a payload is expected to
    give, well-formed buffers, and the sample files the properties are
    tried on. *)

(** ** The layout of the file

    The encoding that [read_appinfo] reads back. *)

Definition byte_of (v : Z) : byte := default x00 (Byte.of_N (Z.to_N v)).

(** [n] bytes, little-endian. *)
Fixpoint le_bytes (n : nat) (v : Z) : bytes :=
  match n with
  | O => []
  | S n' => byte_of (v mod 256) :: le_bytes n' (v / 256)
  end.

(** One application: appid, declared size, the fixed fields, the payload. *)
Definition encode_app (a : app) : bytes :=
  le_bytes 4 (appid a)
  ++ le_bytes 4 (60 + Z.of_nat (length (binary_content a)))
  ++ le_bytes 4 (info_state a) ++ le_bytes 4 (last_updated a)
  ++ le_bytes 8 (picsToken a) ++ sha1Text a
  ++ le_bytes 4 (change_number a) ++ sha1Binary a
  ++ binary_content a.

(** Header, applications, the sentinel appid 0, and whatever follows it. *)
Definition layout (universe string_table_offset : Z) (apps : list app)
    (trailer : bytes) : bytes :=
  magic_signature ++ le_bytes 4 universe ++ le_bytes 8 string_table_offset
  ++ concat (encode_app <$> apps) ++ le_bytes 4 0 ++ trailer.

(** The fields of [a] are in the range of their encoding. *)
Definition encodable (a : app) : Prop :=
  0 < appid a < 2 ^ 32
  ∧ 60 + Z.of_nat (length (binary_content a)) < 2 ^ 32
  ∧ 0 ≤ info_state a < 2 ^ 32
  ∧ 0 ≤ last_updated a < 2 ^ 32
  ∧ 0 ≤ picsToken a < 2 ^ 64
  ∧ length (sha1Text a) = 20%nat
  ∧ 0 ≤ change_number a < 2 ^ 32
  ∧ length (sha1Binary a) = 20%nat
  ∧ name a = None ∧ type a = None ∧ icon_hash a = None.

(** ** Markers and their values *)

(** [sub] occurs in [s] at index [i]; [i] is its first occurrence. *)
Definition occurs_at (s sub : bytes) (i : Z) : Prop :=
  0 ≤ i ∧ take (length sub) (drop (Z.to_nat i) s) = sub.
Definition first_occurrence (s sub : bytes) (i : Z) : Prop :=
  occurs_at s sub i ∧ ∀ j, occurs_at s sub j → i ≤ j.

(** The value after a marker: the bytes from [i] up to the next zero byte. *)
Fixpoint until_zero (s : bytes) : bytes :=
  match s with
  | [] => []
  | c :: s' => if bool_decide (c = x00) then [] else c :: until_zero s'
  end.
Definition value_at (content : bytes) (i : Z) : bytes :=
  until_zero (drop (Z.to_nat i) content).

(** The value after the first occurrence of [marker], when [marker]
    occurs, is ended by a zero byte inside [content]. *)
Definition terminated (marker content : bytes) : Prop :=
  ∀ i, find_index content marker = Some i →
       x00 ∈ drop (Z.to_nat (i + 5)) content.

(** ** The fields a payload gives *)

(** The fields the decoder finds in a payload. *)
Definition expected_name (content : bytes) : option str :=
  i ← find_index content name_marker;
  utf8_decode (value_at content (i + 5)).
Definition expected_type (content : bytes) : option str :=
  i ← find_index content type_marker;
  let value := value_at content (i + 5) in
  if bool_decide (value ∈ item_types) then Some (ord <$> value) else None.
Definition expected_icon_hash (content : bytes) : option str :=
  i ← find_index content icon_marker;
  utf8_decode (slice content (i + 5) (i + 5 + 40)).

(** Setting a field when a value was found. *)
Definition put_name (a : app) (v : option str) : app :=
  match v with Some t => set_name a t | None => a end.
Definition put_type (a : app) (v : option str) : app :=
  match v with Some t => set_type a t | None => a end.
Definition put_icon_hash (a : app) (v : option str) : app :=
  match v with Some t => set_icon_hash a t | None => a end.

(** The record stored for the encoded record [a]. *)
Definition decoded (a : app) : app :=
  App (appid a) (info_state a) (last_updated a) (picsToken a) (sha1Text a)
      (change_number a) (sha1Binary a)
      (expected_name (binary_content a))
      (expected_type (binary_content a))
      (expected_icon_hash (binary_content a))
      (binary_content a).

(** The name and the icon hash are valid UTF-8. *)
Definition decodable (content : bytes) : Prop :=
  (∀ i, find_index content name_marker = Some i →
        is_Some (utf8_decode (value_at content (i + 5))))
  ∧ (∀ i, find_index content icon_marker = Some i →
          is_Some (utf8_decode (slice content (i + 5) (i + 5 + 40)))).

(** The store built from the records, in their order. *)
Definition store_of (d : gmap Z app) (apps : list app) : gmap Z app :=
  foldl (λ d a, <[appid a := decoded a]> d) d apps.

(** The record read at position [p] (just after the appid) of [c], when
    the declared size is at least 60 and the record lies inside [c]. *)
Definition app_at (c : bytes) (p : Z) (appid : Z) : app :=
  let size := le_int (slice c p (p + 4)) in
  App appid
      (le_int (slice c (p + 4) (p + 8)))
      (le_int (slice c (p + 8) (p + 12)))
      (le_int (slice c (p + 12) (p + 20)))
      (slice c (p + 20) (p + 40))
      (le_int (slice c (p + 40) (p + 44)))
      (slice c (p + 44) (p + 64))
      None None None
      (slice c (p + 64) (p + 4 + size)).

(** ** Well-formed buffers *)

(** A record as the design document asks for it: fields in range, the
    values of the name and type markers ended by a zero byte. *)
Definition well_formed_app (a : app) : Prop :=
  encodable a
  ∧ terminated name_marker (binary_content a)
  ∧ terminated type_marker (binary_content a).

(** A well-formed buffer, as the design document has it. *)
Definition well_formed (buf : bytes) : Prop :=
  ∃ universe string_table_offset apps trailer,
    buf = layout universe string_table_offset apps trailer
    ∧ 0 ≤ universe < 2 ^ 32
    ∧ 0 ≤ string_table_offset < 2 ^ 64
    ∧ Forall well_formed_app apps.

(** ** What [get_valid_file_name] computes *)

(** What the two loops compute: the string without its leading spaces,
    and the same from the other end. *)
Fixpoint lstrip (s : str) : str :=
  match s with
  | [] => []
  | c :: s' => if bool_decide (c = space) then lstrip s' else s
  end.
Definition rstrip (s : str) : str := reverse (lstrip (reverse s)).

(** The character a forbidden character is replaced by, and any other
    character itself. *)
Definition sanitise (chars : str) (c : Z) : Z :=
  if bool_decide (c ∈ chars) then space else c.

(** ** Sample files *)

(** A record whose payload is [content], the other fields being fixed. *)
Definition app_with (appid : Z) (content : bytes) : app :=
  App appid 0 0 0 (replicate 20 x00) 0 (replicate 20 x00) None None None
      content.

(** A file with one record: appid 440, a declared size of 64 and a
    payload of four bytes that holds no marker. *)
Definition sample_app : app :=
  App 440 2 3 4 (replicate 20 x61) 5 (replicate 20 x62) None None None
      [x0a; x0b; x0c; x0d].
Definition sample_file : bytes := layout 1 0 [sample_app] [].

(** Two buffers that differ only in the string table offset, and two
    that differ only in a byte of the string table. *)
Definition offset_past_end : bytes := layout 1 100 [] [].
Definition offset_inside : bytes := layout 1 0 [] [].
Definition string_table_7 : bytes := layout 1 4 [] [x07; x00; x00; x00].
Definition string_table_8 : bytes := layout 1 4 [] [x08; x00; x00; x00].

(** A file whose only record holds the type marker, [value] and a zero
    byte. *)
Definition type_file (value : bytes) : bytes :=
  layout 1 0 [app_with 7 (type_marker ++ value ++ [x00])] [].

(** A file whose only record holds the icon marker and [value]; the 40
    characters of a digest. *)
Definition icon_file (value : bytes) : bytes :=
  layout 1 0 [app_with 7 (icon_marker ++ value)] [].
Definition digest : bytes := lit "0123456789abcdef0123456789abcdef01234567".

(** A well-formed file whose only record holds the name marker followed
    by the four bytes of Team, with no zero byte after them. *)
Definition unterminated_name : bytes :=
  layout 1 0 [app_with 440 (name_marker ++ lit "Team")] [].

(** A file with one record, appid 440 and the name Team Fortress 2, and
    the same file cut after the first four bytes of the name: the record
    declares 81 bytes and only 69 of them are there. *)
Definition team_fortress : bytes :=
  layout 1 0 [app_with 440 (name_marker ++ lit "Team Fortress 2" ++ [x00])] [].
Definition truncated_in_name : bytes := take 93 team_fortress.


(** A record whose name is the single byte ff, which is not UTF-8. *)
Definition invalid_name : bytes :=
  layout 1 0 [app_with 7 (name_marker ++ [xff; x00])] [].

(** ** Truncated buffers *)


(** ** A sample system *)

(** Steam is installed in [C:/Steam], every path is a directory, no path
    is a file, paths are joined with a slash and writing raises nothing. *)
Definition sample_system : system :=
  System (λ _ _, Found ()) (λ _ _ _, Found (text "C:/Steam"))
         (λ _, true) (λ _, false)
         (λ a ps, foldl (λ x y, x ++ text "/" ++ y) a ps) (λ path, path)
         (λ _ _, None).

(** A decoded record with a name and an icon hash, and an output
    directory. *)
Definition half_life : app :=
  set_icon_hash (set_name (app_with 70 []) (text "Half-Life: Source"))
                (ord <$> digest).
Definition desktop : str := text "C:/Users/user/Desktop".

(** * Properties of the model *)

(** ** The model on sample inputs *)

Example forbidden_chars_codes :
  forbidden_chars = [47; 92; 58; 42; 63; 34; 60; 62; 124].
Proof. reflexivity. Qed.

Example get_valid_file_name_sample :
  get_valid_file_name (text "  Half-Life 2: Episode One? ")
  = text "Half-Life 2  Episode One".
Proof. vm_compute. reflexivity. Qed.

Example utf8_decode_sample :
  utf8_decode [x41; xc3; xa9; xe2; x82; xac; xf0; x9f; x98; x80]
  = Some [65; 233; 8364; 128512]
  ∧ utf8_decode [xc0; x80] = None
  ∧ utf8_decode [xed; xa0; x80] = None
  ∧ utf8_decode [xe2; x82] = None.
Proof. repeat split. Qed.

(** The scenario of the design document: one record with appid 440 and
    the name Team Fortress 2. *)
Example read_appinfo_team_fortress :
  read_appinfo 20 team_fortress
  = Ret {[ 440 := set_name
                    (app_with 440 (name_marker ++ lit "Team Fortress 2" ++ [x00]))
                    (text "Team Fortress 2") ]}.
Proof. vm_compute. reflexivity. Qed.

(** With too little fuel for the fifteen bytes of the name, no outcome. *)
Example read_appinfo_out_of_fuel :
  read_appinfo 10 team_fortress = OutOfFuel.
Proof. vm_compute. reflexivity. Qed.

(** ** Outcomes *)

Section Outcome.
Context {A B : Type}.
Implicit Types (m : outcome A) (k : A → outcome B).

Lemma bind_ret_inv m k r :
  m ≫= k = Ret r → ∃ a, m = Ret a ∧ k a = Ret r.
Proof. destruct m as [a| |]; simpl; [eauto | discriminate..]. Qed.

(** An exception that neither [m] nor any continuation raises is not
    raised by their composition. *)
Lemma bind_never_raises m k e :
  m ≠ Raise e → (∀ a, k a ≠ Raise e) → m ≫= k ≠ Raise e.
Proof. destruct m as [a|e'|]; simpl; intros; auto; congruence. Qed.
End Outcome.

(** ** Bytes and slices *)

Lemma ord_range c : 0 ≤ ord c < 256.
Proof.
  unfold ord. pose proof (Byte.to_N_bounded c) as H. lia.
Qed.

Lemma ord_byte_of v : 0 ≤ v < 256 → ord (byte_of v) = v.
Proof.
  intros Hv. unfold ord, byte_of.
  destruct (Byte.of_N (Z.to_N v)) as [c|] eqn:E.
  - apply Byte.to_of_N in E. simpl. lia.
  - apply Byte.of_N_None_iff in E. lia.
Qed.

Lemma length_le_bytes n v : length (le_bytes n v) = n.
Proof. revert v. induction n as [|n IH]; intros v; simpl; [done | by rewrite IH]. Qed.

Lemma le_int_le_bytes n v :
  0 ≤ v < 256 ^ Z.of_nat n → le_int (le_bytes n v) = v.
Proof.
  revert v. induction n as [|n IH]; intros v Hv.
  - simpl in *. lia.
  - rewrite Nat2Z.inj_succ, Z.pow_succ_r in Hv by lia.
    simpl. rewrite ord_byte_of by (apply Z.mod_pos_bound; lia).
    rewrite IH.
    + pose proof (Z.div_mod v 256). lia.
    + split; [apply Z.div_pos; lia | apply Z.div_lt_upper_bound; lia].
Qed.

Lemma le_int_range s : 0 ≤ le_int s < 256 ^ Z.of_nat (length s).
Proof.
  induction s as [|c s IH]; [simpl; lia |].
  cbn [le_int length]. rewrite Nat2Z.inj_succ, Z.pow_succ_r by lia.
  pose proof (ord_range c). lia.
Qed.

Lemma length_slice {A} (s : list A) i j :
  0 ≤ i → i ≤ j → j ≤ Z.of_nat (length s) →
  Z.of_nat (length (slice s i j)) = j - i.
Proof.
  intros. unfold slice. rewrite length_take, length_drop. lia.
Qed.

Lemma slice_drop {A} (s : list A) i n :
  0 ≤ i → 0 ≤ n → slice s i (i + n) = take (Z.to_nat n) (drop (Z.to_nat i) s).
Proof. intros. unfold slice. do 2 f_equal. lia. Qed.

Lemma drop_slice {A} (s : list A) i n :
  0 ≤ i → 0 ≤ n →
  drop (Z.to_nat i) s = slice s i (i + n) ++ drop (Z.to_nat (i + n)) s.
Proof.
  intros. rewrite slice_drop by done.
  replace (Z.to_nat (i + n)) with (Z.to_nat i + Z.to_nat n)%nat by lia.
  by rewrite <- drop_drop, take_drop.
Qed.

(** ** Reading from the file *)

(** A read of as many bytes as the file still holds returns them and
    advances by their number. *)
Lemma read_exact c p s rest :
  0 ≤ p → drop (Z.to_nat p) c = s ++ rest →
  read (File c p) (Z.of_nat (length s))
  = Ret (s, File c (p + Z.of_nat (length s)))
  ∧ drop (Z.to_nat (p + Z.of_nat (length s))) c = rest.
Proof.
  intros Hp Hd. unfold read. cbn [tell contents].
  destruct (Z.ltb_spec (Z.of_nat (length s)) (-1)); [lia|].
  destruct (Z.eqb_spec (Z.of_nat (length s)) (-1)); [lia|].
  rewrite Hd, Nat2Z.id, take_app_length. split; [done|].
  replace (Z.to_nat (p + Z.of_nat (length s)))
    with (Z.to_nat p + length s)%nat by lia.
  by rewrite <- drop_drop, Hd, drop_app_length.
Qed.

Lemma read_slice c p n :
  0 ≤ p → 0 ≤ n → p + n ≤ Z.of_nat (length c) →
  read (File c p) n = Ret (slice c p (p + n), File c (p + n)).
Proof.
  intros Hp Hn Hlen.
  pose proof (length_slice c p (p + n)) as Hl.
  destruct (read_exact c p (slice c p (p + n)) (drop (Z.to_nat (p + n)) c))
    as [Hr _]; [done | by apply drop_slice |].
  rewrite Hl in Hr by lia. by replace (p + n - p) with n in Hr by lia.
Qed.

Lemma unpack_exact n s : length s = n → unpack n s = Ret (le_int s).
Proof. intros H. unfold unpack. by rewrite bool_decide_eq_true_2. Qed.

Lemma unpack_short n s : length s ≠ n → unpack n s = Raise StructError.
Proof. intros H. unfold unpack. by rewrite bool_decide_eq_false_2. Qed.

Lemma read_int32_slice c p :
  0 ≤ p → p + 4 ≤ Z.of_nat (length c) →
  read_int32 (File c p) = Ret (le_int (slice c p (p + 4)), File c (p + 4)).
Proof.
  intros Hp Hlen. unfold read_int32. rewrite read_slice by lia. simpl.
  unfold int32. rewrite unpack_exact; [done|].
  pose proof (length_slice c p (p + 4)). lia.
Qed.

Lemma read_int64_slice c p :
  0 ≤ p → p + 8 ≤ Z.of_nat (length c) →
  read_int64 (File c p) = Ret (le_int (slice c p (p + 8)), File c (p + 8)).
Proof.
  intros Hp Hlen. unfold read_int64. rewrite read_slice by lia. simpl.
  unfold int64. rewrite unpack_exact; [done|].
  pose proof (length_slice c p (p + 8)). lia.
Qed.

(** With fewer than four bytes left, reading an integer is [struct.error]. *)
Lemma read_int32_short c p :
  0 ≤ p → Z.of_nat (length c) < p + 4 →
  read_int32 (File c p) = Raise StructError.
Proof.
  intros Hp Hlen. unfold read_int32, read. cbn [tell contents]. simpl.
  unfold int32. rewrite unpack_short; [done|].
  rewrite length_take, length_drop. lia.
Qed.

(** ** Which exceptions the decoder raises

    [SyntaxError] is raised by the magic check alone. *)

Lemma read_no_syntax_error f n : read f n ≠ Raise SyntaxError.
Proof. unfold read. by case_match. Qed.

Lemma read_int32_no_syntax_error f : read_int32 f ≠ Raise SyntaxError.
Proof.
  unfold read_int32, int32, unpack.
  apply bind_never_raises; [apply read_no_syntax_error|].
  intros [s f']. by case_bool_decide.
Qed.

Lemma read_int64_no_syntax_error f : read_int64 f ≠ Raise SyntaxError.
Proof.
  unfold read_int64, int64, unpack.
  apply bind_never_raises; [apply read_no_syntax_error|].
  intros [s f']. by case_bool_decide.
Qed.

Lemma seek_no_syntax_error f t : seek f t ≠ Raise SyntaxError.
Proof. unfold seek. by case_match. Qed.

Lemma read_app_no_syntax_error f i : read_app f i ≠ Raise SyntaxError.
Proof.
  unfold read_app.
  repeat (apply bind_never_raises;
          [first [apply read_int32_no_syntax_error
                 | apply read_int64_no_syntax_error
                 | apply read_no_syntax_error]
          | intros [? ?]]).
  discriminate.
Qed.

Lemma scan_no_syntax_error fuel content i acc :
  scan fuel content i acc ≠ Raise SyntaxError.
Proof.
  revert i acc. induction fuel as [|fuel IH]; intros i acc; simpl; [done|].
  by case_bool_decide.
Qed.

Lemma decode_no_syntax_error s : decode s ≠ Raise SyntaxError.
Proof. unfold decode. by case_match. Qed.

Lemma extract_name_no_syntax_error n a : extract_name n a ≠ Raise SyntaxError.
Proof.
  unfold extract_name. case_match; [|done].
  apply bind_never_raises; [apply scan_no_syntax_error|]. intros v.
  apply bind_never_raises; [apply decode_no_syntax_error | done].
Qed.

Lemma extract_type_no_syntax_error n a : extract_type n a ≠ Raise SyntaxError.
Proof.
  unfold extract_type. case_match; [|done].
  apply bind_never_raises; [apply scan_no_syntax_error|]. intros v.
  case_bool_decide; [|done].
  apply bind_never_raises; [apply decode_no_syntax_error | done].
Qed.

Lemma extract_icon_hash_no_syntax_error a :
  extract_icon_hash a ≠ Raise SyntaxError.
Proof.
  unfold extract_icon_hash. case_match; [|done].
  apply bind_never_raises; [apply decode_no_syntax_error | done].
Qed.

Lemma extract_fields_no_syntax_error n a :
  extract_fields n a ≠ Raise SyntaxError.
Proof.
  unfold extract_fields.
  apply bind_never_raises; [apply extract_name_no_syntax_error|]. intros a1.
  apply bind_never_raises; [apply extract_type_no_syntax_error|]. intros a2.
  apply extract_icon_hash_no_syntax_error.
Qed.

Lemma read_apps_no_syntax_error n fuel f d :
  read_apps n fuel f d ≠ Raise SyntaxError.
Proof.
  revert f d. induction fuel as [|fuel IH]; intros f d; simpl; [done|].
  apply bind_never_raises; [apply read_int32_no_syntax_error|].
  intros [i f1]. case_bool_decide; [done|].
  apply bind_never_raises; [apply read_app_no_syntax_error|]. intros [a f2].
  apply bind_never_raises; [apply extract_fields_no_syntax_error|]. intros a1.
  apply IH.
Qed.

(** The first read of the decoder. *)
Lemma read_magic buf :
  read (open buf) 4
  = Ret (take 4 buf, File buf (Z.of_nat (length (take 4 buf)))).
Proof. reflexivity. Qed.

(** C4.  The decoder raises [SyntaxError], its format-mismatch error,
    exactly when the first four bytes of the buffer (or the whole buffer,
    when it is shorter) differ from the magic signature.  An outcome that
    is [Raise] carries no store, so on a mismatch nothing is returned,
    and with the right magic the decoder never fails with that error. *)
Theorem read_appinfo_format_mismatch (fuel : nat) (buf : bytes) :
  read_appinfo fuel buf = Raise SyntaxError ↔ take 4 buf ≠ magic_signature.
Proof.
  unfold read_appinfo, read_header. rewrite read_magic. cbn [mbind outcome_bind].
  case_bool_decide as Hm; [by split|].
  split; [|by intros ?].
  intros H. exfalso. revert H. simpl.
  apply bind_never_raises.
  - apply bind_never_raises; [apply read_int32_no_syntax_error|]. intros [u f1].
    apply bind_never_raises; [apply read_int64_no_syntax_error|]. intros [o f2].
    apply bind_never_raises; [apply seek_no_syntax_error|]. intros f3.
    apply bind_never_raises; [apply read_int32_no_syntax_error|]. intros [k f4].
    apply bind_never_raises; [apply seek_no_syntax_error | done].
  - intros [h f]. apply read_apps_no_syntax_error.
Qed.

(** ** The header *)

Lemma seek_ok f target :
  0 ≤ target < 2 ^ 63 → seek f target = Ret (File (contents f) target).
Proof.
  intros H. unfold seek.
  destruct (Z.ltb_spec target 0); [lia|].
  destruct (Z.leb_spec (2 ^ 63) target); [lia | done].
Qed.

Lemma seek_too_far f target :
  2 ^ 63 ≤ target → seek f target = Raise ValueError.
Proof.
  intros H. unfold seek.
  destruct (Z.leb_spec (2 ^ 63) target); [|lia]. by rewrite orb_true_r.
Qed.

(** After a matching magic the position is 4. *)
Lemma read_magic_ok buf :
  take 4 buf = magic_signature →
  read (open buf) 4 = Ret (magic_signature, File buf 4).
Proof. intros H. rewrite read_magic, H. reflexivity. Qed.

(** What the header phase does on a buffer that holds the sixteen bytes
    of the header: it reads the string count at the position the string
    table offset names, and fails when four bytes are not there. *)
Lemma read_header_spec buf :
  take 4 buf = magic_signature →
  16 ≤ Z.of_nat (length buf) < 2 ^ 63 →
  read_header (open buf)
  = let offset := le_int (slice buf 8 16) in
    let target := 16 + offset in
    if 2 ^ 63 <=? target then Raise ValueError
    else if Z.of_nat (length buf) <? target + 4 then Raise StructError
    else Ret (Header (le_int (slice buf 4 8)) offset
                     (le_int (slice buf target (target + 4))),
              File buf 16).
Proof.
  intros Hm Hlen. unfold read_header.
  rewrite read_magic_ok by done. cbn [mbind outcome_bind].
  rewrite bool_decide_eq_false_2 by (by intros ?).
  rewrite (read_int32_slice buf 4) by lia. cbn [mbind outcome_bind].
  change (4 + 4) with 8.
  rewrite (read_int64_slice buf 8) by lia. cbn [mbind outcome_bind tell].
  change (8 + 8) with 16.
  pose proof (le_int_range (slice buf 8 16)) as Ho.
  set (offset := le_int (slice buf 8 16)) in *. cbv zeta.
  destruct (Z.leb_spec (2 ^ 63) (16 + offset)).
  { by rewrite seek_too_far. }
  rewrite seek_ok by lia. cbn [mbind outcome_bind contents].
  destruct (Z.ltb_spec (Z.of_nat (length buf)) (16 + offset + 4)).
  - by rewrite read_int32_short by lia.
  - rewrite read_int32_slice by lia. cbn [mbind outcome_bind].
    by rewrite seek_ok by lia.
Qed.

(** C3, as the code has it.  On a buffer with the right magic and the
    sixteen header bytes, the header phase reads the magic, the universe,
    the string table offset and then the 32-bit string count stored at
    position 16 + offset, and goes back to position 16.  When the four
    bytes of the string count lie inside the buffer, the header is
    determined by the bytes before position 16 and by those four; when
    they do not, the header phase and the whole decoder fail. *)
Theorem read_header_string_table (buf : bytes) :
  take 4 buf = magic_signature →
  16 ≤ Z.of_nat (length buf) < 2 ^ 63 →
  let offset := le_int (slice buf 8 16) in
  let target := 16 + offset in
  (target + 4 ≤ Z.of_nat (length buf) →
   read_header (open buf)
   = Ret (Header (le_int (slice buf 4 8)) offset
                 (le_int (slice buf target (target + 4))),
          File buf 16))
  ∧ (Z.of_nat (length buf) < target + 4 →
     ∃ e, (e = StructError ∨ e = ValueError)
          ∧ read_header (open buf) = Raise e
          ∧ ∀ fuel, read_appinfo fuel buf = Raise e).
Proof.
  intros Hm Hlen offset target.
  pose proof (read_header_spec buf Hm Hlen) as Hs. cbv zeta in Hs.
  fold offset target in Hs. split; intros Ht.
  - rewrite Hs.
    destruct (Z.leb_spec (2 ^ 63) target); [lia|].
    destruct (Z.ltb_spec (Z.of_nat (length buf)) (target + 4)); [lia | done].
  - unfold read_appinfo. rewrite Hs.
    destruct (Z.leb_spec (2 ^ 63) target); [by exists ValueError; eauto|].
    destruct (Z.ltb_spec (Z.of_nat (length buf)) (target + 4)); [|lia].
    by exists StructError; eauto.
Qed.

(** C3, as the design document has it, fails.  Two buffers that differ
    only in the byte at position 20, which is position 16 + offset, give
    different headers, so the header phase reads that byte; and of two
    buffers that differ only in the string table offset, the one whose
    offset points past the end fails to decode and the other decodes. *)
Lemma header_dereferences_string_table :
  (take 20 string_table_7 = take 20 string_table_8
   ∧ drop 21 string_table_7 = drop 21 string_table_8
   ∧ 16 + le_int (slice string_table_7 8 16) = 20
   ∧ read_header (open string_table_7)
     = Ret (Header 1 4 7, File string_table_7 16)
   ∧ read_header (open string_table_8)
     = Ret (Header 1 4 8, File string_table_8 16))
  ∧ (take 8 offset_past_end = take 8 offset_inside
     ∧ drop 16 offset_past_end = drop 16 offset_inside
     ∧ read_header (open offset_past_end) = Raise StructError
     ∧ read_appinfo 1 offset_past_end = Raise StructError
     ∧ read_appinfo 1 offset_inside = Ret ∅).
Proof. repeat split; reflexivity. Qed.

Lemma read_header_string_table_witness :
  read_header (open string_table_7)
  = Ret (Header 1 4 7, File string_table_7 16)
  ∧ ∃ e, (e = StructError ∨ e = ValueError)
         ∧ read_header (open offset_past_end) = Raise e
         ∧ ∀ fuel, read_appinfo fuel offset_past_end = Raise e.
Proof.
  split.
  - apply (read_header_string_table string_table_7);
      [reflexivity | vm_compute; split; [discriminate | reflexivity]
      | vm_compute; discriminate].
  - apply (read_header_string_table offset_past_end);
      [reflexivity | vm_compute; split; [discriminate | reflexivity]
      | vm_compute; reflexivity].
Defined.

(** ** One application record *)

Lemma read_app_spec c p appid :
  let size := le_int (slice c p (p + 4)) in
  0 ≤ p → 60 ≤ size → p + 4 + size ≤ Z.of_nat (length c) →
  read_app (File c p) appid = Ret (app_at c p appid, File c (p + 4 + size)).
Proof.
  intros size Hp Hsize Hlen. unfold read_app, app_at. fold size.
  rewrite read_int32_slice by lia. cbn [mbind outcome_bind tell]. fold size.
  rewrite (read_int32_slice c (p + 4)) by lia. cbn [mbind outcome_bind tell].
  rewrite (read_int32_slice c (p + 4 + 4)) by lia. cbn [mbind outcome_bind tell].
  rewrite (read_int64_slice c (p + 4 + 4 + 4)) by lia.
  cbn [mbind outcome_bind tell].
  rewrite (read_slice c (p + 4 + 4 + 4 + 8) 20) by lia.
  cbn [mbind outcome_bind tell].
  rewrite (read_int32_slice c (p + 4 + 4 + 4 + 8 + 20)) by lia.
  cbn [mbind outcome_bind tell].
  rewrite (read_slice c (p + 4 + 4 + 4 + 8 + 20 + 4) 20) by lia.
  cbn [mbind outcome_bind tell].
  rewrite read_slice by lia. cbn [mbind outcome_bind tell].
  repeat match goal with
         | |- context [slice c ?i ?j] =>
           progress (ring_simplify i; ring_simplify j)
         end.
  repeat f_equal; lia.
Qed.

(** One turn of the loop over a record that lies inside [c]: whatever the
    payload holds, the next turn starts where the declared size ends. *)
Lemma read_apps_step n fuel c q d :
  let appid := le_int (slice c q (q + 4)) in
  let size := le_int (slice c (q + 4) (q + 8)) in
  0 ≤ q → appid ≠ 0 → 60 ≤ size → q + 8 + size ≤ Z.of_nat (length c) →
  read_apps n (S fuel) (File c q) d
  = a ← extract_fields n (app_at c (q + 4) appid);
    read_apps n fuel (File c (q + 8 + size)) (<[appid := a]> d).
Proof.
  intros appid size Hq Hid Hsize Hlen.
  pose proof (le_int_range (slice c (q + 4) (q + 8))).
  cbn [read_apps]. rewrite read_int32_slice by lia.
  cbn [mbind outcome_bind]. fold appid.
  rewrite bool_decide_eq_false_2 by done.
  pose proof (read_app_spec c (q + 4) appid) as Hr. cbv zeta in Hr.
  replace (q + 4 + 4) with (q + 8) in Hr by lia. fold size in Hr.
  rewrite Hr by lia. done.
Qed.





(** C8, as the code has it.  The fixed fields read after the declared
    size are info_state (4 bytes), last_updated (4), picsToken (8),
    sha1Text (20), change_number (4) and sha1Binary (20), in that order:
    60 bytes.  For a record with a declared size of at least 60 that lies
    inside the buffer, the payload read next starts 60 bytes after the
    declared size and is exactly the declared size minus 60 bytes long. *)
Theorem fixed_fields_take_60_bytes (c : bytes) (p appid : Z) :
  let size := le_int (slice c p (p + 4)) in
  0 ≤ p → 60 ≤ size → p + 4 + size ≤ Z.of_nat (length c) →
  ∃ a f,
    read_app (File c p) appid = Ret (a, f)
    ∧ info_state a = le_int (slice c (p + 4) (p + 4 + 4))
    ∧ last_updated a = le_int (slice c (p + 4 + 4) (p + 4 + 8))
    ∧ picsToken a = le_int (slice c (p + 4 + 8) (p + 4 + 16))
    ∧ sha1Text a = slice c (p + 4 + 16) (p + 4 + 36)
    ∧ change_number a = le_int (slice c (p + 4 + 36) (p + 4 + 40))
    ∧ sha1Binary a = slice c (p + 4 + 40) (p + 4 + 60)
    ∧ binary_content a = slice c (p + 4 + 60) (p + 4 + size)
    ∧ Z.of_nat (length (binary_content a)) = size - 60
    ∧ tell f = p + 4 + size.
Proof.
  intros size Hp Hsize Hlen.
  exists (app_at c p appid), (File c (p + 4 + size)).
  split; [by apply read_app_spec|].
  unfold app_at. cbn [info_state last_updated picsToken sha1Text change_number
                      sha1Binary binary_content tell]. fold size.
  repeat split; try done;
    repeat match goal with
           | |- le_int _ = le_int _ => f_equal
           | |- slice _ _ _ = slice _ _ _ => f_equal; lia
           end.
  rewrite length_slice; lia.
Qed.



Lemma fixed_fields_take_60_bytes_witness :
  ∃ a f,
    read_app (File sample_file 20) 440 = Ret (a, f)
    ∧ info_state a = 2 ∧ last_updated a = 3 ∧ picsToken a = 4
    ∧ sha1Text a = replicate 20 x61 ∧ change_number a = 5
    ∧ sha1Binary a = replicate 20 x62
    ∧ binary_content a = [x0a; x0b; x0c; x0d]
    ∧ Z.of_nat (length (binary_content a)) = 64 - 60
    ∧ tell f = 88.
Proof.
  apply (fixed_fields_take_60_bytes sample_file 20 440).
  - lia.
  - vm_compute. discriminate.
  - vm_compute. discriminate.
Defined.

(** C8, as the design document has it, fails: the record of
    [sample_file] declares 64 bytes, and the payload read after the fixed
    fields has four bytes, not [64 - 64]. *)
Lemma fixed_fields_are_not_64_bytes :
  le_int (slice sample_file 20 24) = 64
  ∧ ∃ a f,
      read_app (File sample_file 20) 440 = Ret (a, f)
      ∧ binary_content a = [x0a; x0b; x0c; x0d]
      ∧ Z.of_nat (length (binary_content a)) ≠ 64 - 64.
Proof.
  split; [reflexivity|].
  exists sample_app, (File sample_file 88). by repeat split.
Qed.

(** ** Searching a marker *)

Lemma startswith_take (s sub : bytes) :
  startswith s sub = true ↔ take (length sub) s = sub.
Proof.
  revert s. induction sub as [|p sub IH]; intros s.
  - by destruct s.
  - destruct s as [|c s]; [done|]. cbn [startswith length take].
    rewrite andb_true_iff, bool_decide_eq_true, IH.
    split; [intros [-> H]; by rewrite H | by intros [= -> H]].
Qed.

Lemma occurs_at_0 s sub : occurs_at s sub 0 ↔ startswith s sub = true.
Proof.
  unfold occurs_at. rewrite startswith_take. simpl.
  split; [by intros [_ ?] | by split].
Qed.

Lemma occurs_at_succ c s sub j :
  0 ≤ j → occurs_at (c :: s) sub (Z.succ j) ↔ occurs_at s sub j.
Proof.
  intros Hj. unfold occurs_at. rewrite Z2Nat.inj_succ by done. simpl.
  split; intros [? ?]; (split; [lia | done]).
Qed.

Lemma occurs_at_cons c s sub j :
  occurs_at (c :: s) sub j →
  startswith (c :: s) sub = true ∨ (0 < j ∧ occurs_at s sub (j - 1)).
Proof.
  intros Hj. destruct (decide (j = 0)) as [->|]; [left; by apply occurs_at_0|].
  right. assert (0 ≤ j) by apply Hj. split; [lia|].
  replace j with (Z.succ (j - 1)) in Hj by lia.
  by apply (proj1 (occurs_at_succ c s sub (j - 1) ltac:(lia))) in Hj.
Qed.

Lemma occurs_at_nil sub j : occurs_at [] sub j → sub = [].
Proof. intros [_ H]. by rewrite drop_nil, take_nil in H. Qed.

Lemma find_index_None s sub j : find_index s sub = None → ¬ occurs_at s sub j.
Proof.
  revert j. induction s as [|c s IH]; intros j; cbn [find_index].
  - destruct sub; [done|]. by intros _ ?%occurs_at_nil.
  - destruct (startswith (c :: s) sub) eqn:Hs; [done|].
    destruct (find_index s sub) eqn:Hk; [done|]. intros _ Hj.
    apply occurs_at_cons in Hj as [?|[_ Hj]]; [congruence|].
    by eapply IH.
Qed.

Lemma find_index_first s sub i :
  find_index s sub = Some i → first_occurrence s sub i.
Proof.
  assert (∀ t, startswith t sub = true → first_occurrence t sub 0) as H0.
  { intros t Ht. split; [by apply occurs_at_0|]. by intros j [? _]. }
  revert i. induction s as [|c s IH]; intros i; cbn [find_index].
  - destruct (startswith [] sub) eqn:Hs; [|done]. intros [= <-]. by apply H0.
  - destruct (startswith (c :: s) sub) eqn:Hs; [intros [= <-]; by apply H0|].
    destruct (find_index s sub) as [k|] eqn:Hk; [|done]. intros [= <-].
    destruct (IH k eq_refl) as [Hocc Hmin]. assert (0 ≤ k) by apply Hocc.
    split; [by apply (proj2 (occurs_at_succ c s sub k ltac:(done)))|].
    intros j Hj.
    apply occurs_at_cons in Hj as [?|[? Hj]]; [congruence|].
    apply Hmin in Hj. lia.
Qed.

(** [find_index] returns the first occurrence, and [None] when there is none. *)
Lemma find_index_Some s sub i :
  find_index s sub = Some i ↔ first_occurrence s sub i.
Proof.
  split; [apply find_index_first|]. intros [Hocc Hmin].
  destruct (find_index s sub) as [k|] eqn:Hk.
  - apply find_index_first in Hk as [Hocc' Hmin']. f_equal.
    apply Hmin in Hocc'. apply Hmin' in Hocc. lia.
  - by apply find_index_None with (j := i) in Hk.
Qed.

(** ** The scan for the terminating zero byte *)

Lemma slice_one (content : bytes) i :
  0 ≤ i → slice content i (i + 1) = take 1 (drop (Z.to_nat i) content).
Proof. intros. unfold slice. do 2 f_equal. lia. Qed.

Lemma drop_next (content : bytes) i :
  0 ≤ i → drop (Z.to_nat (i + 1)) content = drop 1 (drop (Z.to_nat i) content).
Proof. intros. rewrite drop_drop. f_equal. lia. Qed.

(** With a zero byte ahead the scan returns the bytes before it, for any
    fuel above their number. *)
Lemma scan_spec fuel content i acc :
  0 ≤ i → x00 ∈ drop (Z.to_nat i) content →
  (length (value_at content i) < fuel)%nat →
  scan fuel content i acc = Ret (acc ++ value_at content i).
Proof.
  unfold value_at. revert i acc.
  induction fuel as [|fuel IH]; intros i acc Hi Hz Hf; [lia|].
  cbn [scan]. rewrite slice_one by done.
  destruct (drop (Z.to_nat i) content) as [|c rest] eqn:Hd.
  { by apply elem_of_nil in Hz. }
  cbn [take until_zero] in *. rewrite take_0.
  destruct (decide (c = x00)) as [->|Hc].
  - rewrite bool_decide_eq_false_2 by (by intros ?).
    rewrite bool_decide_eq_true_2 by done. by rewrite app_nil_r.
  - rewrite bool_decide_eq_true_2 by congruence.
    rewrite bool_decide_eq_false_2 in * by done.
    assert (drop (Z.to_nat (i + 1)) content = rest) as Hd'
        by (by rewrite drop_next, Hd).
    rewrite IH; rewrite ?Hd'.
    + by rewrite <- app_assoc.
    + lia.
    + apply elem_of_cons in Hz as [?|?]; [congruence | done].
    + simpl in Hf. lia.
Qed.

(** Without a zero byte ahead the scan never returns: past the end of
    the payload the slice is empty, which is not [b"\x00"] either. *)
Lemma scan_diverges fuel content i acc :
  0 ≤ i → x00 ∉ drop (Z.to_nat i) content →
  scan fuel content i acc = OutOfFuel.
Proof.
  revert i acc. induction fuel as [|fuel IH]; intros i acc Hi Hz; [done|].
  cbn [scan]. rewrite slice_one by done.
  assert (take 1 (drop (Z.to_nat i) content) ≠ [x00]) as Hne.
  { destruct (drop (Z.to_nat i) content) as [|c rest]; [done|].
    intros [= ->]. apply Hz. by left. }
  rewrite bool_decide_eq_true_2 by done.
  apply IH; [lia|]. rewrite drop_next by done.
  intros Hin. apply Hz. destruct (drop (Z.to_nat i) content); [done|].
  by right.
Qed.

(** ** Decoding ASCII *)

Lemma utf8_decode_ascii s :
  Forall (λ c, ord c < 128) s → utf8_decode s = Some (ord <$> s).
Proof.
  induction 1 as [|c s Hc _ IH]; [done|].
  cbn [utf8_decode]. rewrite (proj2 (Z.ltb_lt _ _) Hc), IH. done.
Qed.

Lemma decode_ascii s : Forall (λ c, ord c < 128) s → decode s = Ret (ord <$> s).
Proof. intros H. unfold decode. by rewrite utf8_decode_ascii. Qed.

Lemma item_types_ascii v : v ∈ item_types → Forall (λ c, ord c < 128) v.
Proof.
  unfold item_types. rewrite !elem_of_cons, elem_of_nil.
  intros H. repeat destruct H as [->|H]; [..|done];
    by repeat constructor.
Qed.

(** ** The three fields *)

(** C7, as the code has it.  When the payload holds the type marker and
    a zero byte ends the value after its first occurrence, the type
    extraction returns without an error, and the type field is set, to
    the value as text, if and only if the value is one of the eight byte
    strings of line 97: Game, DLC, Demo, Config, Beta, Tool, ownersonly
    (in lower case) and Application.  Any other value leaves the field
    absent.  The other fields are not touched. *)
Theorem item_type_closed_set (n : nat) (a : app) (i : Z) :
  let content := binary_content a in
  let value := value_at content (i + 5) in
  first_occurrence content type_marker i →
  x00 ∈ drop (Z.to_nat (i + 5)) content →
  (length value < n)%nat →
  type a = None →
  ∃ a',
    extract_type n a = Ret a'
    ∧ (type a' = Some (ord <$> value)
       ↔ value ∈ [lit "Game"; lit "DLC"; lit "Demo"; lit "Config";
                   lit "Beta"; lit "Tool"; lit "ownersonly";
                   lit "Application"])
    ∧ (type a' = None
       ↔ value ∉ [lit "Game"; lit "DLC"; lit "Demo"; lit "Config";
                   lit "Beta"; lit "Tool"; lit "ownersonly";
                   lit "Application"])
    ∧ name a' = name a ∧ icon_hash a' = icon_hash a
    ∧ binary_content a' = content.
Proof.
  intros content value Hfirst Hz Hn Hty.
  assert (0 ≤ i) by apply Hfirst.
  apply find_index_Some in Hfirst.
  unfold extract_type. fold content. rewrite Hfirst.
  rewrite scan_spec by (done || lia). cbn [mbind outcome_bind]. rewrite app_nil_l.
  fold value. change [lit "Game"; lit "DLC"; lit "Demo"; lit "Config";
                      lit "Beta"; lit "Tool"; lit "ownersonly";
                      lit "Application"] with item_types.
  case_bool_decide as Hin.
  - rewrite decode_ascii by (by apply item_types_ascii).
    eexists. split; [done|]. cbn [type name icon_hash binary_content set_type].
    by repeat split.
  - exists a. rewrite Hty. by repeat split.
Qed.

Lemma item_type_closed_set_witness :
  ∃ a',
    extract_type 11 (app_with 7 (type_marker ++ lit "ownersonly" ++ [x00]))
    = Ret a'
    ∧ type a' = Some (text "ownersonly").
Proof.
  destruct (item_type_closed_set 11
              (app_with 7 (type_marker ++ lit "ownersonly" ++ [x00])) 0)
    as (a' & Hr & Hset & _).
  - split; [split; [lia | reflexivity]|]. by intros j [? _].
  - vm_compute. do 10 right. left.
  - vm_compute. lia.
  - reflexivity.
  - exists a'. split; [exact Hr|]. apply Hset. vm_compute. do 6 right. left.
Defined.

(** C7, as the design document has it, fails: OwnersOnly is one of its
    eight tags and the decoder leaves the type absent for it, while it
    sets the type for ownersonly, which is not one of them as spelled. *)
Lemma owners_only_is_not_accepted :
  (∃ store a, read_appinfo 20 (type_file (lit "OwnersOnly")) = Ret store
              ∧ store !! 7 = Some a ∧ type a = None)
  ∧ (∃ store a, read_appinfo 20 (type_file (lit "ownersonly")) = Ret store
                ∧ store !! 7 = Some a ∧ type a = Some (text "ownersonly")).
Proof.
  split; eexists _, _; (split; [vm_compute; reflexivity|]);
    (split; [vm_compute; reflexivity|]); reflexivity.
Qed.

(** C9, as the code has it.  When the payload holds the icon marker, the
    icon hash is the text decoded from the slice of the payload that
    starts right after the first occurrence of the marker and is 40
    bytes long, or shorter when the payload ends sooner; no terminator
    is looked for.  When 40 bytes follow the marker and all of them are
    ASCII, the icon hash is those 40 bytes, a string of 40 characters. *)
Theorem icon_hash_slice (a : app) (i : Z) :
  let content := binary_content a in
  let raw := slice content (i + 5) (i + 5 + 40) in
  first_occurrence content icon_marker i →
  (∀ v, utf8_decode raw = Some v →
        extract_icon_hash a = Ret (set_icon_hash a v))
  ∧ raw = take 40 (drop (Z.to_nat (i + 5)) content)
  ∧ (i + 5 + 40 ≤ Z.of_nat (length content) →
     Forall (λ c, ord c < 128) raw →
     extract_icon_hash a = Ret (set_icon_hash a (ord <$> raw))
     ∧ length (ord <$> raw) = 40%nat).
Proof.
  intros content raw Hfirst. assert (0 ≤ i) by apply Hfirst.
  apply find_index_Some in Hfirst.
  unfold extract_icon_hash. fold content. rewrite Hfirst. cbv zeta. fold raw.
  split; [|split].
  - intros v Hv. unfold decode. by rewrite Hv.
  - unfold raw. by rewrite slice_drop by lia.
  - intros Hlen Hascii. rewrite decode_ascii by done. split; [done|].
    rewrite length_fmap.
    pose proof (length_slice content (i + 5) (i + 5 + 40)) as Hl.
    fold raw in Hl. lia.
Qed.

Lemma icon_hash_slice_witness :
  extract_icon_hash (app_with 7 (icon_marker ++ digest ++ [x00; x08]))
  = Ret (set_icon_hash (app_with 7 (icon_marker ++ digest ++ [x00; x08]))
                       (ord <$> digest))
  ∧ length (ord <$> digest) = 40%nat.
Proof.
  destruct (icon_hash_slice
              (app_with 7 (icon_marker ++ digest ++ [x00; x08])) 0)
    as (_ & _ & H).
  - split; [split; [lia | reflexivity]|]. by intros j [? _].
  - apply H.
    + vm_compute. discriminate.
    + vm_compute. repeat constructor.
Defined.

(** C9, as the design document has it, fails: with three bytes after the
    marker the stored icon hash has three characters. *)
Lemma icon_hash_shorter_than_40 :
  ∃ store a,
    read_appinfo 20 (icon_file (lit "abc")) = Ret store
    ∧ store !! 7 = Some a
    ∧ icon_hash a = Some (text "abc")
    ∧ length (text "abc") = 3%nat.
Proof.
  eexists _, _. split; [vm_compute; reflexivity|].
  split; [vm_compute; reflexivity|]. by split.
Qed.

(** ** A value that no zero byte ends *)

(** The name search never returns on a payload that holds the name
    marker with no zero byte after its first occurrence; so neither does
    the extraction of the fields. *)
Lemma extract_name_diverges n a i :
  first_occurrence (binary_content a) name_marker i →
  x00 ∉ drop (Z.to_nat (i + 5)) (binary_content a) →
  extract_name n a = OutOfFuel ∧ extract_fields n a = OutOfFuel.
Proof.
  intros Hfirst Hz. assert (0 ≤ i) by apply Hfirst.
  apply find_index_Some in Hfirst.
  assert (extract_name n a = OutOfFuel) as Hn.
  { unfold extract_name. rewrite Hfirst. by rewrite scan_diverges by (done || lia). }
  split; [done|]. unfold extract_fields. by rewrite Hn.
Qed.

(** The same for the type marker, when the name search returns. *)
Lemma extract_type_diverges n a i :
  first_occurrence (binary_content a) type_marker i →
  x00 ∉ drop (Z.to_nat (i + 5)) (binary_content a) →
  extract_type n a = OutOfFuel.
Proof.
  intros Hfirst Hz. assert (0 ≤ i) by apply Hfirst.
  apply find_index_Some in Hfirst.
  unfold extract_type. rewrite Hfirst. by rewrite scan_diverges by (done || lia).
Qed.

(** C2: on [unterminated_name] the decoder returns for no fuel: the loop
    of lines 85 to 87 never exits, where the design document asks for an
    absent name and for the decode to go on. *)
Theorem unterminated_name_never_returns (fuel : nat) :
  read_appinfo fuel unterminated_name = OutOfFuel.
Proof.
  unfold read_appinfo.
  replace (read_header (open unterminated_name))
    with (Ret (Header 1 0 440, File unterminated_name 16))
    by (vm_compute; reflexivity).
  cbn [mbind outcome_bind]. destruct fuel as [|fuel]; [done|].
  rewrite read_apps_step; [|lia | vm_compute; discriminate..].
  destruct (extract_name_diverges (S fuel)
              (app_at unterminated_name (16 + 4)
                      (le_int (slice unterminated_name 16 (16 + 4)))) 0)
    as [_ ->]; [| |done].
  - split; [split; [lia | vm_compute; reflexivity]|]. by intros j [? _].
  - intros H%list_elem_of_In. vm_compute in H.
    repeat destruct H as [H|H]; done.
Qed.

(** ** A truncated file *)

Lemma read_apps_unfold n fuel f d :
  read_apps n (S fuel) f d
  = '(appid, f) ← read_int32 f;
    if bool_decide (appid = 0) then Ret d
    else '(a, f) ← read_app f appid;
         a ← extract_fields n a;
         read_apps n fuel f (<[appid := a]> d).
Proof. reflexivity. Qed.

(** C5: on [truncated_in_name] the payload read runs past the end of the
    buffer, and the decoder then returns for no fuel instead of failing:
    the short payload ends inside the name, and the loop of lines 85 to
    87 never exits. *)
Theorem truncated_in_name_never_returns (fuel : nat) :
  read_appinfo fuel truncated_in_name = OutOfFuel.
Proof.
  unfold read_appinfo.
  replace (read_header (open truncated_in_name))
    with (Ret (Header 1 0 440, File truncated_in_name 16))
    by (vm_compute; reflexivity).
  cbn [mbind outcome_bind]. destruct fuel as [|fuel]; [done|].
  rewrite read_apps_unfold.
  replace (read_int32 (File truncated_in_name 16))
    with (Ret (440, File truncated_in_name 20)) by (vm_compute; reflexivity).
  cbn [mbind outcome_bind]. rewrite bool_decide_eq_false_2 by done.
  replace (read_app (File truncated_in_name 20) 440)
    with (Ret (app_with 440 (name_marker ++ lit "Team"),
               File truncated_in_name 93)) by (vm_compute; reflexivity).
  cbn [mbind outcome_bind].
  destruct (extract_name_diverges (S fuel)
              (app_with 440 (name_marker ++ lit "Team")) 0) as [_ ->];
    [| |done].
  - split; [split; [lia | vm_compute; reflexivity]|]. by intros j [? _].
  - intros H%list_elem_of_In. vm_compute in H.
    repeat destruct H as [H|H]; done.
Qed.

(** The declared size of the record of [truncated_in_name] reaches past
    the end of the buffer, and the untruncated file decodes. *)
Lemma truncated_in_name_is_truncated :
  length truncated_in_name = 93%nat
  ∧ le_int (slice truncated_in_name 20 24) = 81
  ∧ ∃ store a, read_appinfo 20 team_fortress = Ret store
               ∧ store !! 440 = Some a
               ∧ name a = Some (text "Team Fortress 2").
Proof.
  split; [reflexivity|]. split; [reflexivity|].
  eexists _, _. split; [vm_compute; reflexivity|].
  split; [vm_compute; reflexivity|]. reflexivity.
Qed.

(** ** [get_valid_file_name] *)

Lemma startswith_space s :
  startswith s [space] = true ↔ ∃ s', s = space :: s'.
Proof.
  destruct s as [|c s]; simpl.
  - split; [done | by intros [? ?]].
  - rewrite andb_true_r, bool_decide_eq_true.
    split; [intros ->; eauto | by intros [? [= ->]]].
Qed.

Lemma strip_start_lstrip s : strip_start s = lstrip s.
Proof.
  apply (strip_start_elim (λ s r, r = lstrip s)); clear s.
  - intros s H IH _. rewrite IH. unfold removeprefix. rewrite H.
    by apply startswith_space in H as [s' ->].
  - intros s H _. destruct s as [|c s]; [done|]. simpl in *.
    rewrite andb_true_r in H. by rewrite H.
Qed.

Lemma strip_end_rstrip s : strip_end s = rstrip s.
Proof.
  apply (strip_end_elim (λ s r, r = rstrip s)); clear s.
  - intros s H IH _. rewrite IH. unfold removesuffix, rstrip. rewrite H.
    unfold endswith in H. apply startswith_space in H as [u Hu].
    assert (s = reverse u ++ [space]) as ->.
    { by rewrite <- (reverse_involutive s), Hu, reverse_cons. }
    rewrite length_app, Nat.add_sub, take_app_length. simpl.
    by rewrite reverse_involutive, reverse_app, reverse_involutive.
  - intros s H _. unfold rstrip. unfold endswith in H.
    destruct (reverse s) as [|c u] eqn:Hr.
    + simpl. by rewrite <- (reverse_involutive s), Hr.
    + simpl in *. rewrite andb_true_r in H. rewrite H.
      by rewrite <- Hr, reverse_involutive.
Qed.

Lemma lstrip_no_space s : startswith (lstrip s) [space] = false.
Proof.
  induction s as [|c s IH]; [done|]. simpl. case_bool_decide as Hc; [done|].
  simpl. by rewrite andb_true_r, bool_decide_eq_false_2.
Qed.

Lemma lstrip_id s : startswith s [space] = false → lstrip s = s.
Proof.
  destruct s as [|c s]; [done|]. simpl. rewrite andb_true_r. by intros ->.
Qed.

Lemma elem_of_lstrip c s : c ∈ lstrip s → c ∈ s.
Proof.
  induction s as [|c' s IH]; [done|]. simpl. case_bool_decide; [|done].
  intros ?%IH. by right.
Qed.

Lemma elem_of_rstrip c s : c ∈ rstrip s → c ∈ s.
Proof.
  unfold rstrip. rewrite elem_of_reverse. intros ?%elem_of_lstrip.
  by apply elem_of_reverse.
Qed.

Lemma rstrip_no_space s : endswith (rstrip s) [space] = false.
Proof.
  unfold endswith, rstrip. rewrite reverse_involutive. apply lstrip_no_space.
Qed.

Lemma rstrip_id s : endswith s [space] = false → rstrip s = s.
Proof.
  unfold endswith, rstrip. intros H. rewrite lstrip_id by done.
  apply reverse_involutive.
Qed.

Lemma lstrip_snoc s c : c ≠ space → lstrip (s ++ [c]) = lstrip s ++ [c].
Proof.
  intros Hc. induction s as [|c' s IH]; simpl.
  - by rewrite bool_decide_eq_false_2.
  - by case_bool_decide.
Qed.

Lemma rstrip_keeps_start s :
  startswith s [space] = false → startswith (rstrip s) [space] = false.
Proof.
  destruct s as [|c s]; [done|]. simpl. rewrite andb_true_r.
  intros Hc%bool_decide_eq_false. unfold rstrip.
  rewrite reverse_cons, lstrip_snoc, reverse_app by done. simpl.
  by rewrite andb_true_r, bool_decide_eq_false_2.
Qed.

Lemma replace_absent s old new : old ∉ s → replace s old new = s.
Proof.
  intros H. unfold replace. induction s as [|c s IH]; [done|].
  apply not_elem_of_cons in H as [? ?]. rewrite fmap_cons, IH by done.
  by rewrite bool_decide_eq_false_2 by done.
Qed.

(** The loop over the forbidden characters, one pass over the string. *)
Lemma remove_chars_sanitise chars s :
  space ∉ chars →
  foldl (λ filename char,
           if bool_decide (char ∈ filename) then replace filename char space
           else filename) s chars
  = sanitise chars <$> s.
Proof.
  revert s. induction chars as [|k chars IH]; intros s Hs.
  - simpl. induction s as [|c s IHs]; [done|].
    rewrite fmap_cons, <- IHs. unfold sanitise.
    by rewrite bool_decide_eq_false_2 by apply not_elem_of_nil.
  - apply not_elem_of_cons in Hs as [Hk Hs]. cbn [foldl].
    assert ((if bool_decide (k ∈ s) then replace s k space else s)
            = replace s k space) as ->.
    { case_bool_decide; [done|]. by rewrite replace_absent. }
    rewrite IH by done. unfold replace. rewrite <- list_fmap_compose.
    apply list_fmap_ext. intros _ c _. unfold sanitise. simpl.
    destruct (decide (c = k)) as [->|Hck].
    + rewrite (bool_decide_eq_true_2 (k = k)) by done.
      rewrite (bool_decide_eq_false_2 (space ∈ chars)) by done.
      by rewrite bool_decide_eq_true_2 by left.
    + rewrite (bool_decide_eq_false_2 (c = k)) by done.
      destruct (decide (c ∈ chars)) as [Hin|Hin].
      * rewrite (bool_decide_eq_true_2 (c ∈ chars)) by done.
        by rewrite bool_decide_eq_true_2 by (by right).
      * rewrite (bool_decide_eq_false_2 (c ∈ chars)) by done.
        rewrite bool_decide_eq_false_2; [done|].
        by intros [?|?]%elem_of_cons.
Qed.

Lemma remove_forbidden_sanitise s :
  remove_forbidden s = sanitise forbidden_chars <$> s.
Proof.
  apply remove_chars_sanitise. intros H%list_elem_of_In. vm_compute in H.
  repeat destruct H as [H|H]; done.
Qed.

Lemma sanitise_not_forbidden c : sanitise forbidden_chars c ∉ forbidden_chars.
Proof.
  unfold sanitise. case_bool_decide as Hc; [|done]. clear Hc.
  intros H%list_elem_of_In. vm_compute in H.
  repeat destruct H as [H|H]; done.
Qed.

(** C10.  The name returned by [get_valid_file_name] holds none of the
    nine forbidden characters, does not start with a space and does not
    end with one; and the function returns such a name unchanged, so
    applying it twice is applying it once. *)
Theorem get_valid_file_name_valid (filename : str) :
  let r := get_valid_file_name filename in
  (∀ c, c ∈ forbidden_chars → c ∉ r)
  ∧ startswith r [space] = false
  ∧ endswith r [space] = false
  ∧ get_valid_file_name r = r.
Proof.
  intros r.
  assert (∀ s, get_valid_file_name s
               = rstrip (lstrip (sanitise forbidden_chars <$> s))) as Hspec.
  { intros s. unfold get_valid_file_name.
    by rewrite strip_end_rstrip, strip_start_lstrip, remove_forbidden_sanitise. }
  assert (∀ c, c ∈ forbidden_chars → c ∉ r) as Hclean.
  { intros c Hc Hin. unfold r in Hin. rewrite Hspec in Hin.
    apply elem_of_rstrip, elem_of_lstrip, list_elem_of_fmap in Hin
      as (c' & Hc' & _).
    rewrite Hc' in Hc. by apply (sanitise_not_forbidden c'). }
  assert (startswith r [space] = false) as Hstart.
  { unfold r. rewrite Hspec. apply rstrip_keeps_start, lstrip_no_space. }
  assert (endswith r [space] = false) as Hend.
  { unfold r. rewrite Hspec. apply rstrip_no_space. }
  repeat split; try done.
  rewrite Hspec.
  assert (sanitise forbidden_chars <$> r = r) as ->.
  { rewrite <- (list_fmap_id r) at 2. apply list_fmap_ext. intros k c Hc.
    unfold sanitise. rewrite bool_decide_eq_false_2; [done|].
    intros Hin. apply (Hclean c Hin). by eapply list_elem_of_lookup_2. }
  by rewrite lstrip_id, rstrip_id.
Qed.

(** ** Well-formed files *)

Lemma read_int32_exact c p v rest :
  0 ≤ p → 0 ≤ v < 2 ^ 32 → drop (Z.to_nat p) c = le_bytes 4 v ++ rest →
  read_int32 (File c p) = Ret (v, File c (p + 4))
  ∧ drop (Z.to_nat (p + 4)) c = rest.
Proof.
  intros Hp Hv Hd.
  destruct (read_exact c p (le_bytes 4 v) rest Hp Hd) as [Hr Hd'].
  rewrite length_le_bytes in *. change (Z.of_nat 4) with 4 in *.
  split; [|done]. unfold read_int32. rewrite Hr. cbn [mbind outcome_bind].
  unfold int32. rewrite unpack_exact by apply length_le_bytes.
  by rewrite le_int_le_bytes.
Qed.

Lemma read_int64_exact c p v rest :
  0 ≤ p → 0 ≤ v < 2 ^ 64 → drop (Z.to_nat p) c = le_bytes 8 v ++ rest →
  read_int64 (File c p) = Ret (v, File c (p + 8))
  ∧ drop (Z.to_nat (p + 8)) c = rest.
Proof.
  intros Hp Hv Hd.
  destruct (read_exact c p (le_bytes 8 v) rest Hp Hd) as [Hr Hd'].
  rewrite length_le_bytes in *. change (Z.of_nat 8) with 8 in *.
  split; [|done]. unfold read_int64. rewrite Hr. cbn [mbind outcome_bind].
  unfold int64. rewrite unpack_exact by apply length_le_bytes.
  by rewrite le_int_le_bytes.
Qed.

(** Reading back an encoded record. *)
Lemma read_app_encoded c p a rest :
  0 ≤ p → encodable a →
  drop (Z.to_nat p) c = encode_app a ++ rest →
  read_int32 (File c p) = Ret (appid a, File c (p + 4))
  ∧ read_app (File c (p + 4)) (appid a)
    = Ret (a, File c (p + Z.of_nat (length (encode_app a))))
  ∧ drop (Z.to_nat (p + Z.of_nat (length (encode_app a)))) c = rest.
Proof.
  intros Hp (Hid & Hsize & Hstate & Hupd & Htok & Ht & Hcn & Hb & Hn & Hty & Hi) Hd.
  unfold encode_app in Hd. rewrite <- !app_assoc in Hd.
  apply read_int32_exact in Hd as [R1 D1]; [|lia..].
  split; [done|]. unfold read_app.
  apply read_int32_exact in D1 as [R2 D2]; [|lia..].
  rewrite R2. cbn [mbind outcome_bind tell].
  apply read_int32_exact in D2 as [R3 D3]; [|lia..].
  rewrite R3. cbn [mbind outcome_bind tell].
  apply read_int32_exact in D3 as [R4 D4]; [|lia..].
  rewrite R4. cbn [mbind outcome_bind tell].
  apply read_int64_exact in D4 as [R5 D5]; [|lia..].
  rewrite R5. cbn [mbind outcome_bind tell].
  apply read_exact in D5 as [R6 D6]; [|lia].
  rewrite Ht in R6, D6. change (Z.of_nat 20) with 20 in *.
  rewrite R6. cbn [mbind outcome_bind tell].
  apply read_int32_exact in D6 as [R7 D7]; [|lia..].
  rewrite R7. cbn [mbind outcome_bind tell].
  apply read_exact in D7 as [R8 D8]; [|lia].
  rewrite Hb in R8, D8. change (Z.of_nat 20) with 20 in *.
  rewrite R8. cbn [mbind outcome_bind tell].
  apply read_exact in D8 as [R9 D9]; [|lia].
  set (n := Z.of_nat (length (binary_content a))) in *.
  replace (p + 4 + 4 + (60 + n) - (p + 4 + 4 + 4 + 4 + 8 + 20 + 4 + 20))
    with n by lia.
  rewrite R9. cbn [mbind outcome_bind].
  assert (Z.of_nat (length (encode_app a)) = 68 + n) as ->.
  { unfold encode_app. rewrite !length_app, !length_le_bytes, Ht, Hb. lia. }
  replace (p + 4 + 4 + 4 + 4 + 8 + 20 + 4 + 20 + n) with (p + (68 + n)) in * by lia.
  split; [|done]. do 2 f_equal. destruct a. simpl in *. by subst.
Qed.

Lemma binary_content_put_name a v :
  binary_content (put_name a v) = binary_content a.
Proof. by destruct v. Qed.

Lemma binary_content_put_type a v :
  binary_content (put_type a v) = binary_content a.
Proof. by destruct v. Qed.

Lemma length_until_zero s : (length (until_zero s) ≤ length s)%nat.
Proof.
  induction s as [|c s IH]; [done|]. simpl. case_bool_decide; simpl; lia.
Qed.

Lemma length_value_at content i :
  (length (value_at content i) ≤ length content)%nat.
Proof.
  unfold value_at. pose proof (length_until_zero (drop (Z.to_nat i) content)).
  rewrite length_drop in *. lia.
Qed.

Lemma extract_name_expected n a :
  terminated name_marker (binary_content a) →
  (∀ i, find_index (binary_content a) name_marker = Some i →
        is_Some (utf8_decode (value_at (binary_content a) (i + 5)))) →
  (length (binary_content a) < n)%nat →
  extract_name n a = Ret (put_name a (expected_name (binary_content a))).
Proof.
  intros Hz Hd Hn. unfold extract_name, expected_name.
  destruct (find_index (binary_content a) name_marker) as [i|] eqn:Hf; [|done].
  assert (0 ≤ i) by (by apply find_index_first in Hf as [[? _] _]).
  pose proof (length_value_at (binary_content a) (i + 5)).
  rewrite scan_spec by (first [lia | by apply Hz]).
  cbn [mbind outcome_bind option_bind]. rewrite app_nil_l.
  destruct (Hd i eq_refl) as [v Hv]. unfold decode. by rewrite Hv.
Qed.

Lemma extract_type_expected n a :
  terminated type_marker (binary_content a) →
  (length (binary_content a) < n)%nat →
  extract_type n a = Ret (put_type a (expected_type (binary_content a))).
Proof.
  intros Hz Hn. unfold extract_type, expected_type.
  destruct (find_index (binary_content a) type_marker) as [i|] eqn:Hf; [|done].
  assert (0 ≤ i) by (by apply find_index_first in Hf as [[? _] _]).
  pose proof (length_value_at (binary_content a) (i + 5)).
  rewrite scan_spec by (first [lia | by apply Hz]).
  cbn [mbind outcome_bind option_bind]. rewrite app_nil_l.
  case_bool_decide; [|done].
  by rewrite decode_ascii by (by apply item_types_ascii).
Qed.

Lemma extract_icon_hash_expected a :
  (∀ i, find_index (binary_content a) icon_marker = Some i →
        is_Some (utf8_decode (slice (binary_content a) (i + 5) (i + 5 + 40)))) →
  extract_icon_hash a
  = Ret (put_icon_hash a (expected_icon_hash (binary_content a))).
Proof.
  intros Hd. unfold extract_icon_hash, expected_icon_hash.
  destruct (find_index (binary_content a) icon_marker) as [i|] eqn:Hf; [|done].
  cbn [mbind outcome_bind option_bind].
  destruct (Hd i eq_refl) as [v Hv]. unfold decode. by rewrite Hv.
Qed.

(** The field extraction on a well-formed record with decodable fields. *)
Lemma extract_fields_decoded n a :
  well_formed_app a → decodable (binary_content a) →
  (length (binary_content a) < n)%nat →
  extract_fields n a = Ret (decoded a).
Proof.
  intros (Henc & Hname & Htype) [Hdn Hdi] Hn.
  destruct Henc as (_ & _ & _ & _ & _ & _ & _ & _ & Hn0 & Ht0 & Hi0).
  unfold extract_fields. rewrite extract_name_expected by done.
  cbn [mbind outcome_bind].
  rewrite extract_type_expected by (by rewrite binary_content_put_name).
  cbn [mbind outcome_bind].
  rewrite extract_icon_hash_expected
    by (by rewrite binary_content_put_type, binary_content_put_name).
  rewrite binary_content_put_type, !binary_content_put_name.
  f_equal. unfold decoded. destruct a as [id st up tok t cn sb nm ty ic content].
  cbn [name type icon_hash binary_content] in *. subst nm ty ic.
  by destruct (expected_name content), (expected_type content),
    (expected_icon_hash content).
Qed.

(** ** The store *)

Lemma store_of_app d l1 l2 : store_of d (l1 ++ l2) = store_of (store_of d l1) l2.
Proof. apply foldl_app. Qed.

Lemma dom_store_of d apps :
  dom (store_of d apps) = dom d ∪ list_to_set (appid <$> apps).
Proof.
  revert d. induction apps as [|a apps IH]; intros d.
  - simpl. by rewrite (right_id_L ∅ (∪)).
  - cbn [store_of foldl]. fold (store_of (<[appid a := decoded a]> d) apps).
    rewrite IH, dom_insert_L, fmap_cons, list_to_set_cons.
    by rewrite (comm_L (∪) {[appid a]} (dom d)), (assoc_L (∪)).
Qed.

Lemma store_of_other d apps k :
  k ∉ appid <$> apps → store_of d apps !! k = d !! k.
Proof.
  revert d. induction apps as [|a apps IH]; intros d Hk; [done|].
  rewrite fmap_cons in Hk. apply not_elem_of_cons in Hk as [Hk1 Hk2].
  simpl. rewrite IH by done. by rewrite lookup_insert_ne.
Qed.

(** Last write wins. *)
Lemma store_of_last d l1 a l2 :
  appid a ∉ appid <$> l2 →
  store_of d (l1 ++ a :: l2) !! appid a = Some (decoded a).
Proof.
  intros Hk. rewrite store_of_app. simpl.
  rewrite store_of_other by done. apply lookup_insert_eq.
Qed.

(** ** The loop over the records of a well-formed file *)

Lemma read_apps_encoded n apps : ∀ fuel c p d trailer,
  0 ≤ p →
  Forall (λ a, well_formed_app a ∧ decodable (binary_content a)
               ∧ (length (binary_content a) < n)%nat) apps →
  (length apps < fuel)%nat →
  drop (Z.to_nat p) c = concat (encode_app <$> apps) ++ le_bytes 4 0 ++ trailer →
  read_apps n fuel (File c p) d = Ret (store_of d apps).
Proof.
  induction apps as [|a apps IH]; intros fuel c p d trailer Hp Hwf Hfuel Hd;
    (destruct fuel as [|fuel]; [simpl in Hfuel; lia|]);
    rewrite read_apps_unfold.
  - simpl in Hd. apply read_int32_exact in Hd as [-> _]; [|lia..].
    cbn [mbind outcome_bind]. by rewrite bool_decide_eq_true_2.
  - apply Forall_cons in Hwf as [(Hwa & Hda & Hna) Hwf].
    rewrite fmap_cons in Hd. cbn [concat] in Hd. rewrite <- app_assoc in Hd.
    apply read_app_encoded in Hd as (-> & R & D); [|done | apply Hwa].
    cbn [mbind outcome_bind].
    rewrite bool_decide_eq_false_2
      by (destruct Hwa as [(? & _) _]; lia).
    rewrite R. cbn [mbind outcome_bind].
    rewrite extract_fields_decoded by done. cbn [mbind outcome_bind].
    by erewrite IH; [done | lia | done | simpl in Hfuel; lia | done].
Qed.

Lemma length_encode_app a :
  (length (binary_content a) < length (encode_app a))%nat.
Proof. unfold encode_app. rewrite !length_app, !length_le_bytes. lia. Qed.

Lemma length_concat_encode apps :
  (length apps ≤ length (concat (encode_app <$> apps)))%nat
  ∧ Forall (λ a, (length (binary_content a)
                  < length (concat (encode_app <$> apps)))%nat) apps.
Proof.
  induction apps as [|a apps [IH1 IH2]]; [by split|].
  rewrite fmap_cons. cbn [concat]. rewrite length_app.
  pose proof (length_encode_app a). split; [simpl; lia|].
  constructor; [lia|]. eapply Forall_impl; [exact IH2|]. simpl. lia.
Qed.

Lemma slice_middle {A} (pre x rest : list A) i j :
  i = Z.of_nat (length pre) → j = i + Z.of_nat (length x) →
  slice (pre ++ x ++ rest) i j = x.
Proof.
  intros -> ->. unfold slice. rewrite Nat2Z.id, drop_app_length.
  replace (Z.to_nat _) with (length x) by lia. apply take_app_length.
Qed.

(** C1, as the code has it.  On a well-formed buffer (the magic, a
    sequence of encoded records with fields in range, the sentinel appid
    0, the values of the name and type markers ended by a zero byte) in
    which, in addition, the four bytes of the string count at position
    16 + string table offset lie inside the buffer, and the name and the
    icon hash of every record are valid UTF-8, [read_appinfo] returns for
    every fuel from the length of the buffer on.  The keys of the store
    it returns are the appids of the records before the sentinel, and an
    appid that occurs in several records is mapped to the last of them. *)
Theorem read_appinfo_well_formed (universe string_table_offset : Z)
    (apps : list app) (trailer : bytes) :
  let buf := layout universe string_table_offset apps trailer in
  0 ≤ universe < 2 ^ 32 →
  0 ≤ string_table_offset < 2 ^ 64 →
  Forall well_formed_app apps →
  16 + string_table_offset + 4 ≤ Z.of_nat (length buf) < 2 ^ 63 →
  Forall (λ a, decodable (binary_content a)) apps →
  ∃ store,
    (∀ fuel, (length buf ≤ fuel)%nat → read_appinfo fuel buf = Ret store)
    ∧ dom store = list_to_set (appid <$> apps)
    ∧ (∀ l1 a l2,
         apps = l1 ++ a :: l2 → appid a ∉ appid <$> l2 →
         store !! appid a = Some (decoded a)).
Proof.
  intros buf Hu Ho Hwf Hlen Hdec. exists (store_of ∅ apps).
  split; [|split].
  - intros fuel Hfuel.
    set (records := concat (encode_app <$> apps) ++ le_bytes 4 0 ++ trailer).
    assert (buf = (magic_signature ++ le_bytes 4 universe)
                  ++ le_bytes 8 string_table_offset ++ records) as Hbuf.
    { unfold buf, layout, records. by rewrite <- !app_assoc. }
    assert (Z.of_nat (length buf) = 16 + Z.of_nat (length records)) as Hl.
    { rewrite Hbuf, !length_app, !length_le_bytes. simpl. lia. }
    assert (le_int (slice buf 8 16) = string_table_offset) as Hsto.
    { rewrite Hbuf, slice_middle, le_int_le_bytes; [done | lia | ..].
      - rewrite length_app, length_le_bytes. simpl. lia.
      - rewrite length_le_bytes. lia. }
    unfold read_appinfo. rewrite read_header_spec; [|by rewrite Hbuf | lia].
    cbv zeta. rewrite Hsto.
    destruct (Z.leb_spec (2 ^ 63) (16 + string_table_offset)); [lia|].
    destruct (Z.ltb_spec (Z.of_nat (length buf))
                (16 + string_table_offset + 4)); [lia|].
    cbn [mbind outcome_bind].
    pose proof (length_concat_encode apps) as [Hn1 Hn2].
    assert (length (concat (encode_app <$> apps)) < length buf)%nat as Hc.
    { unfold records in Hl. rewrite !length_app, length_le_bytes in Hl. lia. }
    apply read_apps_encoded with (trailer := trailer); [lia | | lia |].
    + rewrite Forall_forall in Hwf, Hdec, Hn2.
      apply Forall_forall. intros a Ha. split; [by apply Hwf|].
      split; [by apply Hdec|]. specialize (Hn2 a Ha). simpl in Hn2. lia.
    + assert (buf = (magic_signature ++ le_bytes 4 universe
                       ++ le_bytes 8 string_table_offset) ++ records) as ->.
      { rewrite Hbuf. by rewrite <- !app_assoc. }
      apply drop_app_length'. by rewrite !length_app, !length_le_bytes.
  - by rewrite dom_store_of, dom_empty_L, (left_id_L ∅ (∪)).
  - intros l1 a l2 -> Hk. by apply store_of_last.
Qed.

(** ** Fuel is only a bound *)

(** An outcome that is not [OutOfFuel] is the outcome for any larger fuel. *)
Lemma scan_mono n m content i acc :
  (n ≤ m)%nat → scan n content i acc ≠ OutOfFuel →
  scan m content i acc = scan n content i acc.
Proof.
  revert m i acc. induction n as [|n IH]; intros m i acc Hnm Hr; [done|].
  destruct m as [|m]; [lia|]. cbn [scan] in *.
  case_bool_decide; [|done]. apply IH; [lia | done].
Qed.

Lemma bind_mono {A B} (m1 m2 : outcome A) (k1 k2 : A → outcome B) :
  (m1 ≠ OutOfFuel → m2 = m1) →
  (∀ a, k1 a ≠ OutOfFuel → k2 a = k1 a) →
  m1 ≫= k1 ≠ OutOfFuel → m2 ≫= k2 = m1 ≫= k1.
Proof.
  intros Hm Hk H. destruct m1 as [a|e|]; [| |done].
  - rewrite Hm by done. simpl in *. by apply Hk.
  - by rewrite Hm.
Qed.

Lemma extract_fields_mono n m a :
  (n ≤ m)%nat → extract_fields n a ≠ OutOfFuel →
  extract_fields m a = extract_fields n a.
Proof.
  intros Hnm. unfold extract_fields. apply bind_mono.
  - unfold extract_name. destruct (find_index _ _); [|done].
    apply bind_mono; [by apply scan_mono | done].
  - intros a1. apply bind_mono; [|done].
    unfold extract_type. destruct (find_index _ _); [|done].
    apply bind_mono; [by apply scan_mono | done].
Qed.

Lemma read_apps_mono n m fuel fuel' f d :
  (n ≤ m)%nat → (fuel ≤ fuel')%nat → read_apps n fuel f d ≠ OutOfFuel →
  read_apps m fuel' f d = read_apps n fuel f d.
Proof.
  intros Hnm. revert fuel' f d.
  induction fuel as [|fuel IH]; intros fuel' f d Hf Hr; [done|].
  destruct fuel' as [|fuel']; [lia|]. rewrite !read_apps_unfold in *.
  revert Hr. apply bind_mono; [done|]. intros [i f1].
  case_bool_decide; [done|]. apply bind_mono; [done|]. intros [a f2].
  apply bind_mono; [by apply extract_fields_mono|]. intros a'.
  apply IH. lia.
Qed.

Lemma read_appinfo_mono fuel fuel' buf :
  (fuel ≤ fuel')%nat → read_appinfo fuel buf ≠ OutOfFuel →
  read_appinfo fuel' buf = read_appinfo fuel buf.
Proof.
  intros Hf. unfold read_appinfo. apply bind_mono; [done|]. intros [h f].
  by apply read_apps_mono.
Qed.

(** ** Buffers that are well formed and do not decode *)

Lemma app_with_encodable i content :
  0 < i < 2 ^ 32 → 60 + Z.of_nat (length content) < 2 ^ 32 →
  encodable (app_with i content).
Proof. intros. unfold encodable, app_with. simpl. repeat split; lia || done. Qed.

(** C1, as the design document has it, fails: a buffer with no record
    whose string table offset points past its end, and a buffer whose
    only record has a name that is not UTF-8, are well formed, and the
    decoder raises on both. *)
Lemma well_formed_buffers_that_fail :
  (well_formed offset_past_end
   ∧ ∀ fuel, read_appinfo fuel offset_past_end = Raise StructError)
  ∧ (well_formed invalid_name
     ∧ ∀ fuel, (2 ≤ fuel)%nat →
               read_appinfo fuel invalid_name = Raise UnicodeDecodeError).
Proof.
  split; split.
  - exists 1, 100, [], []. split; [reflexivity|].
    split; [lia|]. split; [lia | constructor].
  - intros fuel. unfold read_appinfo.
    replace (read_header (open offset_past_end))
      with (@Raise (header * file) StructError) by (vm_compute; reflexivity).
    reflexivity.
  - exists 1, 0, [app_with 7 (name_marker ++ [xff; x00])], [].
    split; [reflexivity|]. split; [lia|]. split; [lia|].
    constructor; [|constructor].
    split; [apply app_with_encodable; [lia | vm_compute; reflexivity]|].
    split; intros i Hi; vm_compute in Hi; [|discriminate].
    injection Hi as <-. right. left.
  - intros fuel Hfuel.
    assert (read_appinfo 2 invalid_name = Raise UnicodeDecodeError) as H2
        by (vm_compute; reflexivity).
    rewrite (read_appinfo_mono 2 fuel); [exact H2 | exact Hfuel |].
    rewrite H2. discriminate.
Qed.

Lemma read_appinfo_well_formed_witness :
  ∃ store,
    (∀ fuel, (length team_fortress ≤ fuel)%nat →
             read_appinfo fuel team_fortress = Ret store)
    ∧ dom store = list_to_set [440]
    ∧ (∀ l1 a l2,
         [app_with 440 (name_marker ++ lit "Team Fortress 2" ++ [x00])]
         = l1 ++ a :: l2 →
         appid a ∉ appid <$> l2 → store !! appid a = Some (decoded a)).
Proof.
  apply (read_appinfo_well_formed 1 0
           [app_with 440 (name_marker ++ lit "Team Fortress 2" ++ [x00])] []).
  - lia.
  - lia.
  - constructor; [|constructor].
    split; [apply app_with_encodable; [lia | vm_compute; reflexivity]|].
    split; intros i Hi; vm_compute in Hi; [|discriminate].
    injection Hi as <-. do 15 right. left.
  - vm_compute. split; [discriminate | reflexivity].
  - constructor; [|constructor].
    split; intros i Hi; vm_compute in Hi; [|discriminate].
    injection Hi as <-. vm_compute. eexists. reflexivity.
Defined.

(** ** What a returned store says about the buffer *)

Lemma byte_of_ord c : byte_of (ord c) = c.
Proof. unfold byte_of, ord. by rewrite N2Z.id, Byte.of_to_N. Qed.

Lemma le_bytes_le_int s : le_bytes (length s) (le_int s) = s.
Proof.
  induction s as [|c s IH]; [done|]. cbn [length le_bytes le_int].
  pose proof (ord_range c).
  replace ((ord c + 256 * le_int s) mod 256) with (ord c)
    by (rewrite (Z.mul_comm 256), Z_mod_plus_full; by rewrite Z.mod_small).
  replace ((ord c + 256 * le_int s) / 256) with (le_int s)
    by (rewrite (Z.mul_comm 256), Z_div_plus_full, Z.div_small; lia).
  by rewrite byte_of_ord, IH.
Qed.

(** A read that returns: what it returned and where it stopped. *)
Lemma read_ret_inv c p n out f :
  0 ≤ p → read (File c p) n = Ret (out, f) →
  -1 ≤ n
  ∧ f = File c (p + Z.of_nat (length out))
  ∧ out = (if n =? -1 then drop (Z.to_nat p) c
           else take (Z.to_nat n) (drop (Z.to_nat p) c)).
Proof.
  intros Hp. unfold read. cbn [tell contents].
  destruct (Z.ltb_spec n (-1)); [done|]. intros [= <- <-]. by repeat split.
Qed.

(** A read of [n] bytes that is followed by a position inside the file
    was a complete one. *)
Lemma read_complete c p n out f :
  0 ≤ p → 0 ≤ n → read (File c p) n = Ret (out, f) →
  tell f < Z.of_nat (length c) →
  Z.of_nat (length out) = n
  ∧ f = File c (p + n)
  ∧ drop (Z.to_nat p) c = out ++ drop (Z.to_nat (p + n)) c.
Proof.
  intros Hp Hn Hr Hf. apply read_ret_inv in Hr as (_ & -> & ->); [|done].
  destruct (Z.eqb_spec n (-1)); [lia|]. cbn [tell] in Hf.
  rewrite length_take, length_drop in *.
  assert (Z.of_nat (Z.to_nat n `min` (length c - Z.to_nat p)) = n) as Hl by lia.
  rewrite Hl. repeat split.
  replace (Z.to_nat (p + n)) with (Z.to_nat p + Z.to_nat n)%nat by lia.
  by rewrite <- drop_drop, take_drop.
Qed.

Lemma read_int32_ret_inv c p v f :
  0 ≤ p → read_int32 (File c p) = Ret (v, f) →
  f = File c (p + 4) ∧ p + 4 ≤ Z.of_nat (length c) ∧ 0 ≤ v < 2 ^ 32
  ∧ drop (Z.to_nat p) c = le_bytes 4 v ++ drop (Z.to_nat (p + 4)) c.
Proof.
  intros Hp Hr. unfold read_int32 in Hr.
  apply bind_ret_inv in Hr as ([s f1] & Hs & Hr).
  apply bind_ret_inv in Hr as (v' & Hv & [= -> ->]).
  unfold int32, unpack in Hv. case_bool_decide as Hl; [|done].
  injection Hv as <-.
  apply read_ret_inv in Hs as (_ & -> & Hs); [|done]. simpl in Hs.
  assert (p + 4 ≤ Z.of_nat (length c)) as Hlen.
  { rewrite Hs, length_take, length_drop in Hl. lia. }
  rewrite Hl. split; [done|]. split; [done|].
  split; [pose proof (le_int_range s) as Hrg; by rewrite Hl in Hrg|].
  rewrite <- Hl, le_bytes_le_int, Hs.
  replace (Z.to_nat (p + 4)) with (Z.to_nat p + 4)%nat by lia.
  by rewrite <- drop_drop, take_drop.
Qed.

Lemma read_int64_ret_inv c p v f :
  0 ≤ p → read_int64 (File c p) = Ret (v, f) →
  f = File c (p + 8) ∧ p + 8 ≤ Z.of_nat (length c) ∧ 0 ≤ v < 2 ^ 64
  ∧ drop (Z.to_nat p) c = le_bytes 8 v ++ drop (Z.to_nat (p + 8)) c.
Proof.
  intros Hp Hr. unfold read_int64 in Hr.
  apply bind_ret_inv in Hr as ([s f1] & Hs & Hr).
  apply bind_ret_inv in Hr as (v' & Hv & [= -> ->]).
  unfold int64, unpack in Hv. case_bool_decide as Hl; [|done].
  injection Hv as <-.
  apply read_ret_inv in Hs as (_ & -> & Hs); [|done]. simpl in Hs.
  assert (p + 8 ≤ Z.of_nat (length c)) as Hlen.
  { rewrite Hs, length_take, length_drop in Hl. lia. }
  rewrite Hl. split; [done|]. split; [done|].
  split; [pose proof (le_int_range s) as Hrg; by rewrite Hl in Hrg|].
  rewrite <- Hl, le_bytes_le_int, Hs.
  replace (Z.to_nat (p + 8)) with (Z.to_nat p + 8)%nat by lia.
  by rewrite <- drop_drop, take_drop.
Qed.

(** A record that [read_app] returns, followed by a position inside the
    file, is an encoded record that lies inside the file. *)
Lemma read_app_ret_inv c p i a f :
  0 ≤ p → 0 < i < 2 ^ 32 → read_app (File c p) i = Ret (a, f) →
  ∃ p', f = File c p' ∧ p ≤ p'
        ∧ (p' < Z.of_nat (length c) →
           encodable a ∧ appid a = i
           ∧ le_bytes 4 i ++ drop (Z.to_nat p) c
             = encode_app a ++ drop (Z.to_nat p') c).
Proof.
  intros Hp Hi Hr. unfold read_app in Hr.
  apply bind_ret_inv in Hr as ([size f1] & R1 & Hr).
  apply read_int32_ret_inv in R1 as (-> & L1 & Hsize & D1); [|done].
  cbn [tell] in Hr.
  apply bind_ret_inv in Hr as ([st f2] & R2 & Hr).
  apply read_int32_ret_inv in R2 as (-> & L2 & Hst & D2); [|lia].
  apply bind_ret_inv in Hr as ([up f3] & R3 & Hr).
  apply read_int32_ret_inv in R3 as (-> & L3 & Hup & D3); [|lia].
  apply bind_ret_inv in Hr as ([tok f4] & R4 & Hr).
  apply read_int64_ret_inv in R4 as (-> & L4 & Htok & D4); [|lia].
  apply bind_ret_inv in Hr as ([t f5] & R5 & Hr).
  apply bind_ret_inv in Hr as ([cn f6] & R6 & Hr).
  pose proof R5 as R5'. apply read_ret_inv in R5' as (_ & -> & _); [|lia].
  apply read_int32_ret_inv in R6 as (-> & L6 & Hcn & D6); [|lia].
  apply read_complete in R5 as (Ht & _ & D5); [|lia | lia | simpl; lia].
  rewrite Ht in *.
  apply bind_ret_inv in Hr as ([sb f7] & R7 & Hr).
  apply bind_ret_inv in Hr as ([content f8] & R8 & [= <- <-]).
  pose proof R7 as R7'. apply read_ret_inv in R7' as (_ & -> & _); [|lia].
  cbn [tell] in R8.
  pose proof R8 as R8'. apply read_ret_inv in R8' as (Hn & -> & Hc); [|lia].
  eexists. split; [done|]. split; [lia|]. intros Hin.
  apply read_complete in R7 as (Hb & _ & D7); [|lia | lia | simpl; lia].
  rewrite Hb in *.
  destruct (Z.eqb_spec (p + 4 + size - (p + 4 + 4 + 4 + 8 + 20 + 4 + 20)) (-1))
    as [Heq|Hne].
  { rewrite Hc, length_drop in Hin. lia. }
  apply read_complete in R8 as (Hl & _ & D8); [|lia | lia | simpl; lia].
  assert (Z.of_nat (length t) = 20 → length t = 20%nat) as Ht' by lia.
  assert (Z.of_nat (length sb) = 20 → length sb = 20%nat) as Hb' by lia.
  split; [|split; [done|]].
  - unfold encodable. cbn [appid info_state last_updated picsToken sha1Text
      change_number sha1Binary binary_content name type icon_hash].
    repeat split; try done; try lia; auto.
  - unfold encode_app. cbn [appid info_state last_updated picsToken sha1Text
      change_number sha1Binary binary_content].
    rewrite <- !app_assoc. f_equal. rewrite D1. f_equal; [f_equal; lia|].
    rewrite D2. f_equal. rewrite D3. f_equal. rewrite D4. f_equal.
    rewrite D5. f_equal. rewrite D6. f_equal. rewrite D7. f_equal.
    rewrite D8. do 2 f_equal. lia.
Qed.

Lemma read_apps_ret_inv n fuel : ∀ c p d store,
  0 ≤ p → read_apps n fuel (File c p) d = Ret store →
  ∃ apps trailer,
    drop (Z.to_nat p) c
    = concat (encode_app <$> apps) ++ le_bytes 4 0 ++ trailer
    ∧ Forall encodable apps.
Proof.
  induction fuel as [|fuel IH]; intros c p d store Hp Hr; [done|].
  rewrite read_apps_unfold in Hr.
  apply bind_ret_inv in Hr as ([i f1] & R1 & Hr).
  apply read_int32_ret_inv in R1 as (-> & L1 & Hi & D1); [|done].
  case_bool_decide as Hz.
  { subst i. by exists [], (drop (Z.to_nat (p + 4)) c). }
  apply bind_ret_inv in Hr as ([a f2] & R2 & Hr).
  apply bind_ret_inv in Hr as (a' & _ & Hr).
  apply read_app_ret_inv in R2 as (p' & -> & Hp' & Hin); [|lia..].
  apply IH in Hr as (apps & trailer & D & Hwf); [|lia].
  assert (p' < Z.of_nat (length c)) as Hlt.
  { apply (f_equal length) in D.
    rewrite length_drop, !length_app, length_le_bytes in D. lia. }
  destruct (Hin Hlt) as (Henc & Hid & Hd).
  exists (a :: apps), trailer. split; [|by constructor].
  rewrite fmap_cons. cbn [concat]. rewrite <- app_assoc, <- D, <- Hd.
  rewrite D1. by f_equal.
Qed.

(** X1.  A store is returned only for a buffer that holds the header,
    the string count inside the buffer, complete records with a declared
    size of 60 bytes and their payload, and the sentinel: when a read of
    a record runs past the end of the buffer, no store, partial or not,
    is returned. *)
Theorem read_appinfo_ret_inv (fuel : nat) (buf : bytes) (store : gmap Z app) :
  read_appinfo fuel buf = Ret store →
  ∃ universe string_table_offset apps trailer,
    buf = layout universe string_table_offset apps trailer
    ∧ 0 ≤ universe < 2 ^ 32
    ∧ 0 ≤ string_table_offset < 2 ^ 64
    ∧ 16 + string_table_offset + 4 ≤ Z.of_nat (length buf)
    ∧ Forall encodable apps.
Proof.
  intros Hr. unfold read_appinfo in Hr.
  apply bind_ret_inv in Hr as ([h f] & Hh & Hr).
  unfold read_header in Hh. rewrite read_magic in Hh.
  cbn [mbind outcome_bind] in Hh. case_bool_decide as Hm; [done|].
  assert (length (take 4 buf) = 4%nat) as Hl4 by (by rewrite Hm).
  rewrite Hl4 in Hh. change (Z.of_nat 4) with 4 in Hh.
  apply bind_ret_inv in Hh as ([u f1] & R1 & Hh).
  apply read_int32_ret_inv in R1 as (-> & L1 & Hu & D1); [|done].
  apply bind_ret_inv in Hh as ([o f2] & R2 & Hh).
  apply read_int64_ret_inv in R2 as (-> & L2 & Ho & D2); [|done].
  cbn [tell] in Hh.
  apply bind_ret_inv in Hh as (f3 & R3 & Hh).
  apply bind_ret_inv in Hh as ([k f4] & R4 & Hh).
  apply bind_ret_inv in Hh as (f5 & R5 & [= <- <-]).
  unfold seek in R3, R5.
  destruct ((4 + 4 + 8 + o <? 0) || (2 ^ 63 <=? 4 + 4 + 8 + o)); [done|].
  injection R3 as <-. cbn [contents] in *.
  apply read_int32_ret_inv in R4 as (-> & L4 & _ & _); [|lia].
  cbn [contents] in R5.
  destruct ((4 + 4 + 8 <? 0) || (2 ^ 63 <=? 4 + 4 + 8)); [done|].
  injection R5 as <-.
  apply read_apps_ret_inv in Hr as (apps & trailer & D & Hwf); [|done].
  exists u, o, apps, trailer. split; [|by repeat split; try lia].
  unfold layout. rewrite <- D. rewrite <- (take_drop 4 buf) at 1.
  rewrite Hm. f_equal. change 4%nat with (Z.to_nat 4). rewrite D1.
  f_equal. by rewrite D2.
Qed.

Lemma read_appinfo_ret_inv_witness :
  ∃ universe string_table_offset apps trailer,
    team_fortress = layout universe string_table_offset apps trailer
    ∧ 0 ≤ universe < 2 ^ 32
    ∧ 0 ≤ string_table_offset < 2 ^ 64
    ∧ 16 + string_table_offset + 4 ≤ Z.of_nat (length team_fortress)
    ∧ Forall encodable apps.
Proof.
  destruct (read_appinfo 20 team_fortress) as [store| |] eqn:Hr.
  - exact (read_appinfo_ret_inv 20 team_fortress store Hr).
  - exfalso. vm_compute in Hr. discriminate.
  - exfalso. vm_compute in Hr. discriminate.
Defined.

(** ** More on [get_valid_file_name] *)

Lemma get_valid_file_name_spec s :
  get_valid_file_name s = rstrip (lstrip (sanitise forbidden_chars <$> s)).
Proof.
  unfold get_valid_file_name.
  by rewrite strip_end_rstrip, strip_start_lstrip, remove_forbidden_sanitise.
Qed.

Lemma lstrip_spaces s : ∃ n, s = replicate n space ++ lstrip s.
Proof.
  induction s as [|c s [n IH]]; [by exists 0%nat|]. simpl.
  case_bool_decide as Hc; [|by exists 0%nat].
  exists (S n). simpl. by rewrite Hc, <- IH.
Qed.

Lemma reverse_replicate {A} n (x : A) : reverse (replicate n x) = replicate n x.
Proof.
  induction n as [|n IH]; [done|]. simpl.
  rewrite reverse_cons, IH. clear IH.
  induction n as [|n IH]; [done|]. simpl. by rewrite IH.
Qed.

Lemma rstrip_spaces s : ∃ m, s = rstrip s ++ replicate m space.
Proof.
  destruct (lstrip_spaces (reverse s)) as [m Hm]. exists m. unfold rstrip.
  rewrite <- (reverse_involutive s) at 1. rewrite Hm at 1.
  by rewrite reverse_app, reverse_replicate.
Qed.

Lemma lstrip_nil s : lstrip s = [] ↔ Forall (λ c, c = space) s.
Proof.
  induction s as [|c s IH]; [by split|]. simpl. case_bool_decide as Hc.
  - rewrite IH. split; [by constructor | by intros [_ ?]%Forall_cons_1].
  - split; [done|]. by intros [? _]%Forall_cons_1.
Qed.

Lemma lstrip_app s c t : c ≠ space → lstrip (s ++ c :: t) = lstrip s ++ c :: t.
Proof.
  intros Hc. induction s as [|c' s IH]; simpl.
  - by rewrite bool_decide_eq_false_2.
  - by case_bool_decide.
Qed.

Lemma sanitise_id (s : str) :
  (∀ c, c ∈ forbidden_chars → c ∉ s) → sanitise forbidden_chars <$> s = s.
Proof.
  intros Hs. rewrite <- (list_fmap_id s) at 2. apply list_fmap_ext.
  intros k c Hc. unfold sanitise. rewrite bool_decide_eq_false_2; [done|].
  intros Hin. apply (Hs c Hin). by eapply list_elem_of_lookup_2.
Qed.

(** X2.  The names [get_valid_file_name] returns unchanged are exactly
    the valid ones: those that hold no forbidden character and neither
    start nor end with a space. *)
Theorem get_valid_file_name_fixed_point (filename : str) :
  get_valid_file_name filename = filename
  ↔ (∀ c, c ∈ forbidden_chars → c ∉ filename)
    ∧ startswith filename [space] = false
    ∧ endswith filename [space] = false.
Proof.
  rewrite get_valid_file_name_spec. split.
  - intros H. rewrite <- H. split; [|split].
    + intros c Hc Hin.
      apply elem_of_rstrip, elem_of_lstrip, list_elem_of_fmap in Hin
        as (c' & Hc' & _).
      rewrite Hc' in Hc. by apply (sanitise_not_forbidden c').
    + apply rstrip_keeps_start, lstrip_no_space.
    + apply rstrip_no_space.
  - intros (Hclean & Hstart & Hend).
    by rewrite sanitise_id, lstrip_id, rstrip_id.
Qed.


(** X4.  The name returned is empty exactly when every character of the
    given name is a space or a forbidden character. *)
Theorem get_valid_file_name_empty (filename : str) :
  get_valid_file_name filename = []
  ↔ ∀ c, c ∈ filename → c = space ∨ c ∈ forbidden_chars.
Proof.
  rewrite get_valid_file_name_spec.
  assert (rstrip (lstrip (sanitise forbidden_chars <$> filename)) = []
          ↔ lstrip (sanitise forbidden_chars <$> filename) = []) as ->.
  { split; [|by intros ->].
    intros H. pose proof (lstrip_no_space (sanitise forbidden_chars <$> filename)) as Hs.
    destruct (rstrip_spaces (lstrip (sanitise forbidden_chars <$> filename)))
      as [m Hm]. rewrite H in Hm. simpl in Hm.
    destruct m as [|m]; [done|]. by rewrite Hm in Hs. }
  rewrite lstrip_nil, Forall_fmap, Forall_forall. unfold sanitise.
  split; intros H c Hc; specialize (H c Hc); simpl in *.
  - case_bool_decide; [by right | by left].
  - case_bool_decide; [done|]. by destruct H.
Qed.

(** X5.  The GOG shortcut is named [get_valid_file_name(name + ".lnk")]:
    the extension is added before the name is cleaned, so the result
    always ends with it, and only the spaces at the start of the name
    are removed; spaces at its end stay in front of the extension. *)
Theorem get_valid_file_name_lnk (name : str) :
  get_valid_file_name (name ++ text ".lnk")
  = lstrip (sanitise forbidden_chars <$> name) ++ text ".lnk"
  ∧ ((∀ c, c ∈ forbidden_chars → c ∉ name) →
     startswith name [space] = false →
     get_valid_file_name (name ++ text ".lnk") = name ++ text ".lnk").
Proof.
  assert (get_valid_file_name (name ++ text ".lnk")
          = lstrip (sanitise forbidden_chars <$> name) ++ text ".lnk") as H.
  { rewrite get_valid_file_name_spec, fmap_app.
    change (sanitise forbidden_chars <$> text ".lnk") with (46 :: text "lnk").
    rewrite lstrip_app by done. apply rstrip_id.
    unfold endswith. rewrite reverse_app. reflexivity. }
  split; [done|]. intros Hclean Hstart.
  by rewrite H, sanitise_id, lstrip_id.
Qed.

(** ** The name of a record *)

(** The value after a marker ends just before the next zero byte. *)
Lemma until_zero_spec s :
  x00 ∈ s → ∃ rest, s = until_zero s ++ x00 :: rest ∧ x00 ∉ until_zero s.
Proof.
  induction s as [|c s IH]; [by intros ?%elem_of_nil|]. simpl.
  case_bool_decide as Hc.
  - intros _. exists s. rewrite Hc. split; [done | apply not_elem_of_nil].
  - intros [?|Hin]%elem_of_cons; [congruence|].
    destruct (IH Hin) as (rest & Heq & Hnot). exists rest.
    split; [simpl; by rewrite <- Heq|].
    by intros [?|?]%elem_of_cons.
Qed.

(** X7.  When the payload holds the name marker and a zero byte ends
    the value after its first occurrence, the name of the record is the
    text decoded from the bytes between the marker and that zero byte
    (the empty string when the zero byte follows the marker at once);
    when these bytes are not valid UTF-8, the extraction raises
    [UnicodeDecodeError] instead of leaving the name absent. *)
Theorem extract_name_value (n : nat) (a : app) (i : Z) :
  let content := binary_content a in
  let value := value_at content (i + 5) in
  first_occurrence content name_marker i →
  x00 ∈ drop (Z.to_nat (i + 5)) content →
  (length value < n)%nat →
  (∃ rest, drop (Z.to_nat (i + 5)) content = value ++ x00 :: rest
           ∧ x00 ∉ value)
  ∧ (∀ v, utf8_decode value = Some v →
          extract_name n a = Ret (set_name a v))
  ∧ (utf8_decode value = None →
     extract_name n a = Raise UnicodeDecodeError
     ∧ extract_fields n a = Raise UnicodeDecodeError).
Proof.
  intros content value Hfirst Hz Hn. assert (0 ≤ i) by apply Hfirst.
  apply find_index_Some in Hfirst.
  split; [by apply until_zero_spec|].
  assert (extract_name n a = v ← decode value; Ret (set_name a v)) as He.
  { unfold extract_name. fold content. rewrite Hfirst.
    rewrite scan_spec by (done || lia). cbn [mbind outcome_bind].
    by rewrite app_nil_l. }
  split.
  - intros v Hv. rewrite He. unfold decode. by rewrite Hv.
  - intros Hv. assert (extract_name n a = Raise UnicodeDecodeError) as Hr
        by (rewrite He; unfold decode; by rewrite Hv).
    split; [done|]. unfold extract_fields. by rewrite Hr.
Qed.

Lemma extract_name_value_witness :
  extract_name 3 (app_with 7 (name_marker ++ lit "Go" ++ [x00; x09]))
  = Ret (set_name (app_with 7 (name_marker ++ lit "Go" ++ [x00; x09]))
                   (text "Go")).
Proof.
  destruct (extract_name_value 3
              (app_with 7 (name_marker ++ lit "Go" ++ [x00; x09])) 0)
    as (_ & H & _).
  - split; [split; [lia | reflexivity]|]. by intros j [? _].
  - do 2 right. left.
  - vm_compute. lia.
  - apply H. reflexivity.
Defined.

(** ** A header cut short *)

Lemma read_int64_short c p :
  0 ≤ p → Z.of_nat (length c) < p + 8 →
  read_int64 (File c p) = Raise StructError.
Proof.
  intros Hp Hlen. unfold read_int64, read. cbn [tell contents]. simpl.
  unfold int64. rewrite unpack_short; [done|].
  rewrite length_take, length_drop. lia.
Qed.

(** X8.  A buffer that starts with the magic and has fewer than the
    sixteen bytes of the header makes the decoder raise [struct.error]. *)
Theorem read_appinfo_short_header (fuel : nat) (buf : bytes) :
  take 4 buf = magic_signature → (length buf < 16)%nat →
  read_appinfo fuel buf = Raise StructError.
Proof.
  intros Hm Hlen. unfold read_appinfo, read_header.
  rewrite read_magic_ok by done. cbn [mbind outcome_bind].
  rewrite bool_decide_eq_false_2 by (by intros ?).
  destruct (decide (length buf < 8)%nat).
  - by rewrite read_int32_short by lia.
  - rewrite (read_int32_slice buf 4) by lia. cbn [mbind outcome_bind].
    by rewrite read_int64_short by lia.
Qed.

Lemma read_appinfo_short_header_witness :
  read_appinfo 5 (magic_signature ++ [x01; x00; x00; x00; x07])
  = Raise StructError.
Proof.
  apply (read_appinfo_short_header 5
           (magic_signature ++ [x01; x00; x00; x00; x07]));
    [reflexivity | vm_compute; lia].
Defined.

(** ** Reading a file that ends inside a record *)










(** ** The shortcut of a Steam game *)

Lemma io_bind_returns {A B} evs (a : A) (k : A → io B) :
  IO evs (Returns a) ≫= k = IO (evs ++ events (k a)) (outcome_of (k a)).
Proof. reflexivity. Qed.

Lemma io_bind_raises {A B} evs e (k : A → io B) :
  IO evs (Raises e) ≫= k = IO evs (Raises e).
Proof. reflexivity. Qed.

(** [read_steam_path] raises nothing and writes nothing: it returns a
    path or [None] after at most one [print]. *)
Lemma read_steam_path_prints sys :
  ∃ evs r, read_steam_path sys = IO evs (Returns r)
           ∧ ∀ path text, WriteFile path text ∉ evs.
Proof.
  unfold read_steam_path.
  destruct (open_key sys _ _) as [[]| |e];
    [destruct (query_value sys _ _ _) as [path| |e];
       [destruct (isdir sys path)|..]|..];
    eexists _, _; (split; [reflexivity|]); intros path' t Hin;
    repeat (apply elem_of_cons in Hin as [?|Hin]; [done|]);
    by apply elem_of_nil in Hin.
Qed.

(** A record without an icon hash or without a name: [TypeError], and
    no file is written. *)
Lemma create_games_shortcut_type_error sys appid d out a :
  d !! appid = Some a → isdir sys out = true →
  icon_hash a = None ∨ name a = None →
  outcome_of (create_games_shortcut sys appid d out) = Raises TypeError
  ∧ ∀ path text,
      WriteFile path text ∉ events (create_games_shortcut sys appid d out).
Proof.
  intros Ha Hdir Hnone. unfold create_games_shortcut. rewrite Ha, Hdir.
  destruct (read_steam_path_prints sys) as (evs & steam & -> & Hevs).
  rewrite io_bind_returns.
  destruct (icon_hash a) as [h|].
  - destruct Hnone as [?|Hname]; [done|]. rewrite Hname.
    destruct steam as [steam|]; cbn; rewrite ?app_nil_r; by split.
  - cbn. rewrite app_nil_r. by split.
Qed.

Ltac no_event H :=
  repeat (apply elem_of_cons in H as [H|H]; [try done|]);
  try (by apply elem_of_nil in H).

(** [read_steam_path] returns a path exactly when the registry holds it
    and it is a directory. *)
Lemma read_steam_path_returns sys steam :
  outcome_of (read_steam_path sys) = Returns (Some steam)
  ↔ (∃ u, open_key sys HKEY_LOCAL_MACHINE
            (text "SOFTWARE\WOW6432Node\Valve\Steam") = Found u)
    ∧ query_value sys HKEY_LOCAL_MACHINE
        (text "SOFTWARE\WOW6432Node\Valve\Steam") (text "InstallPath")
      = Found steam
    ∧ isdir sys steam = true.
Proof.
  unfold read_steam_path.
  destruct (open_key sys _ _) as [u| |e] eqn:Hk;
    [destruct (query_value sys _ _ _) as [path| |e] eqn:Hq;
       [destruct (isdir sys path) eqn:Hd|..]|..]; cbn; split;
    try (intros [= <-]; eauto); try (intros ([u' ?] & ? & ?)); try done.
  - by simplify_eq.
  - simplify_eq. congruence.
Qed.

(** The run of [create_games_shortcut] when nothing is missing. *)
Lemma create_games_shortcut_found sys appid d out a evs steam h n :
  d !! appid = Some a → isdir sys out = true →
  read_steam_path sys = IO evs (Returns (Some steam)) →
  icon_hash a = Some h → name a = Some n →
  let icon := normpath sys
                (join sys steam [text "steam/games"; h ++ text ".ico"]) in
  let path := normpath sys
                (join sys out [get_valid_file_name n ++ text ".url"]) in
  let t := shortcut_text (text "steam://rungameid/" ++ str_of_int appid)
                         (if isfile sys icon then icon else []) in
  create_games_shortcut sys appid d out
  = IO (evs ++ [WriteFile path t])
       (match write_raises sys path t with
        | Some e => Raises e
        | None => Returns (Some path)
        end).
Proof.
  intros Ha Hdir Hs Hh Hn icon path t. unfold create_games_shortcut.
  rewrite Ha, Hdir, Hs, Hh, Hn, io_bind_returns.
  unfold mbind, io_bind, mret, io_ret, write.
  cbn [events outcome_of]. fold icon. cbn [events outcome_of].
  fold path t. destruct (write_raises sys path t); cbn [events outcome_of];
    by rewrite ?app_nil_r.
Qed.

(** X9.  [create_games_shortcut] reaches the writing of the shortcut
    (the [with open(final_path, "w", ...)] block) exactly when the appid
    is in the dict, the output directory exists, the registry gives a
    Steam directory and the record has an icon hash and a name; the file
    is then the one named by [get_valid_file_name] of the name followed
    by [.url], in the output directory, and the text holds the URL of the
    appid and the icon path (empty when the icon file does not exist).
    The call then returns this path when [open] and [f.write] raise
    nothing, and raises what they raise otherwise: so the file is
    written exactly when the conditions hold and the writing raises
    nothing. *)
Theorem create_games_shortcut_writes (sys : system) (appid : Z)
    (appinfo_dict : gmap Z app) (output_dir path t : str) :
  let run := create_games_shortcut sys appid appinfo_dict output_dir in
  (WriteFile path t ∈ events run
   ↔ ∃ a steam h n,
       appinfo_dict !! appid = Some a
       ∧ isdir sys output_dir = true
       ∧ outcome_of (read_steam_path sys) = Returns (Some steam)
       ∧ icon_hash a = Some h
       ∧ name a = Some n
       ∧ path = normpath sys
                  (join sys output_dir [get_valid_file_name n ++ text ".url"])
       ∧ t = let icon := normpath sys
                           (join sys steam [text "steam/games"; h ++ text ".ico"]) in
             shortcut_text (text "steam://rungameid/" ++ str_of_int appid)
                           (if isfile sys icon then icon else []))
  ∧ (WriteFile path t ∈ events run ∧ write_raises sys path t = None
     ↔ outcome_of run = Returns (Some path)
       ∧ WriteFile path t ∈ events run)
  ∧ (∀ e, WriteFile path t ∈ events run ∧ write_raises sys path t = Some e
          ↔ outcome_of run = Raises e ∧ WriteFile path t ∈ events run).
Proof.
  intros run. subst run.
  destruct (read_steam_path_prints sys) as (evs & steam & Hs & Hevs).
  assert (WriteFile path t
            ∈ events (create_games_shortcut sys appid appinfo_dict output_dir)
          → ∃ a steam h n,
              (appinfo_dict !! appid = Some a
               ∧ isdir sys output_dir = true
               ∧ outcome_of (read_steam_path sys) = Returns (Some steam)
               ∧ icon_hash a = Some h
               ∧ name a = Some n
               ∧ path = normpath sys
                          (join sys output_dir
                             [get_valid_file_name n ++ text ".url"])
               ∧ t = shortcut_text
                       (text "steam://rungameid/" ++ str_of_int appid)
                       (if isfile sys
                             (normpath sys
                                (join sys steam
                                   [text "steam/games"; h ++ text ".ico"]))
                        then normpath sys
                               (join sys steam
                                  [text "steam/games"; h ++ text ".ico"])
                        else []))
              ∧ outcome_of
                  (create_games_shortcut sys appid appinfo_dict output_dir)
                = match write_raises sys path t with
                  | Some e => Raises e
                  | None => Returns (Some path)
                  end) as Hwritten.
  { destruct (appinfo_dict !! appid) as [a|] eqn:Ha;
      [|unfold create_games_shortcut; rewrite Ha;
        intros H; cbn in H; no_event H].
    destruct (isdir sys output_dir) eqn:Hdir;
      [|unfold create_games_shortcut; rewrite Ha, Hdir;
        intros H; cbn in H; no_event H].
    destruct (icon_hash a) as [h|] eqn:Hh;
      [|intros H; by eapply create_games_shortcut_type_error in H; eauto].
    destruct (name a) as [n|] eqn:Hn;
      [|intros H; by eapply create_games_shortcut_type_error in H; eauto].
    destruct steam as [steam|].
    + rewrite (create_games_shortcut_found _ _ _ _ _ _ _ _ _ Ha Hdir Hs Hh Hn).
      cbn [events outcome_of].
      intros [H|H]%elem_of_app; [by apply Hevs in H|].
      apply list_elem_of_singleton in H as [= -> ->].
      exists a, steam, h, n. by rewrite Hs.
    + unfold create_games_shortcut. rewrite Ha, Hdir, Hs, Hh, io_bind_returns.
      cbn. rewrite app_nil_r. intros H. by apply Hevs in H. }
  split; [|split].
  - split.
    + intros H. destruct (Hwritten H) as (a & st & h & n & Hc & _).
      by exists a, st, h, n.
    + intros (a & st & h & n & Ha & Hdir & Hst & Hh & Hn & -> & ->).
      rewrite Hs in Hst. cbn in Hst. injection Hst as ->.
      rewrite (create_games_shortcut_found _ _ _ _ _ _ _ _ _ Ha Hdir Hs Hh Hn).
      cbn [events]. apply elem_of_app. right. apply elem_of_cons. by left.
  - split.
    + intros [H Hw]. split; [|done].
      destruct (Hwritten H) as (_ & _ & _ & _ & _ & ->). by rewrite Hw.
    + intros [Ho H]. split; [done|].
      destruct (Hwritten H) as (_ & _ & _ & _ & _ & Ho'). rewrite Ho' in Ho.
      by destruct (write_raises sys path t).
  - intros e. split.
    + intros [H Hw]. split; [|done].
      destruct (Hwritten H) as (_ & _ & _ & _ & _ & ->). by rewrite Hw.
    + intros [Ho H]. split; [done|].
      destruct (Hwritten H) as (_ & _ & _ & _ & _ & Ho'). rewrite Ho' in Ho.
      destruct (write_raises sys path t); congruence.
Qed.

Lemma create_games_shortcut_writes_witness :
  WriteFile (text "C:/Users/user/Desktop/Half-Life  Source.url")
            (shortcut_text (text "steam://rungameid/70") [])
    ∈ events (create_games_shortcut sample_system 70
                (<[70 := half_life]> ∅) desktop)
  ∧ (∃ a steam h n,
      (<[70 := half_life]> ∅ : gmap Z app) !! 70 = Some a
      ∧ isdir sample_system desktop = true
      ∧ outcome_of (read_steam_path sample_system) = Returns (Some steam)
      ∧ icon_hash a = Some h
      ∧ name a = Some n
      ∧ text "C:/Users/user/Desktop/Half-Life  Source.url"
        = normpath sample_system
            (join sample_system desktop
               [get_valid_file_name n ++ text ".url"])
      ∧ shortcut_text (text "steam://rungameid/70") []
        = let icon := normpath sample_system
                        (join sample_system steam
                           [text "steam/games"; h ++ text ".ico"]) in
          shortcut_text (text "steam://rungameid/" ++ str_of_int 70)
                        (if isfile sample_system icon then icon else []))
  ∧ outcome_of (create_games_shortcut sample_system 70
                  (<[70 := half_life]> ∅) desktop)
    = Returns (Some (text "C:/Users/user/Desktop/Half-Life  Source.url")).
Proof.
  assert (WriteFile (text "C:/Users/user/Desktop/Half-Life  Source.url")
            (shortcut_text (text "steam://rungameid/70") [])
          ∈ events (create_games_shortcut sample_system 70
                      (<[70 := half_life]> ∅) desktop)) as H.
  { apply list_elem_of_In. vm_compute. left. reflexivity. }
  pose proof (create_games_shortcut_writes sample_system 70
                (<[70 := half_life]> ∅) desktop
                (text "C:/Users/user/Desktop/Half-Life  Source.url")
                (shortcut_text (text "steam://rungameid/70") [])) as Hw.
  cbv zeta in Hw. destruct Hw as (H1 & H2 & _).
  split; [exact H|]. split; [exact (proj1 H1 H)|].
  exact (proj1 (proj1 H2 (conj H eq_refl))).
Defined.

(** X10.  When [create_games_shortcut] returns a path, it has written
    the file of this path and the writing raised nothing; when it
    returns [None], the appid is not in the dict or the output directory
    does not exist, and it has written no file. *)
Theorem create_games_shortcut_returns (sys : system) (appid : Z)
    (appinfo_dict : gmap Z app) (output_dir : str) (r : option str) :
  outcome_of (create_games_shortcut sys appid appinfo_dict output_dir)
  = Returns r →
  match r with
  | Some path =>
    ∃ t, WriteFile path t
           ∈ events (create_games_shortcut sys appid appinfo_dict output_dir)
         ∧ write_raises sys path t = None
  | None =>
    (appinfo_dict !! appid = None ∨ isdir sys output_dir = false)
    ∧ ∀ path t,
        WriteFile path t
          ∉ events (create_games_shortcut sys appid appinfo_dict output_dir)
  end.
Proof.
  destruct (read_steam_path_prints sys) as (evs & steam & Hs & Hevs).
  destruct (appinfo_dict !! appid) as [a|] eqn:Ha.
  2:{ unfold create_games_shortcut. rewrite Ha. intros [= <-].
      split; [by left|]. intros path t H. cbn in H. no_event H. }
  destruct (isdir sys output_dir) eqn:Hdir.
  2:{ unfold create_games_shortcut. rewrite Ha, Hdir. intros [= <-].
      split; [by right|]. intros path t H. cbn in H. no_event H. }
  destruct (icon_hash a) as [h|] eqn:Hh.
  2:{ intros H. eapply create_games_shortcut_type_error in Ha as [Ht _];
        [|done|by left]. by rewrite Ht in H. }
  destruct (name a) as [n|] eqn:Hn.
  2:{ intros H. eapply create_games_shortcut_type_error in Ha as [Ht _];
        [|done|by right]. by rewrite Ht in H. }
  destruct steam as [steam|].
  - rewrite (create_games_shortcut_found _ _ _ _ _ _ _ _ _ Ha Hdir Hs Hh Hn).
    cbn [outcome_of events].
    destruct (write_raises sys _ _) eqn:Hw; [done|]. intros [= <-].
    eexists. split; [|exact Hw].
    apply elem_of_app. right. apply elem_of_cons. by left.
  - unfold create_games_shortcut. rewrite Ha, Hdir, Hs, Hh, io_bind_returns.
    by cbn.
Qed.

Lemma create_games_shortcut_returns_witness :
  outcome_of (create_games_shortcut sample_system 70
                (<[70 := half_life]> ∅) desktop)
  = Returns (Some (text "C:/Users/user/Desktop/Half-Life  Source.url"))
  ∧ ∃ t, WriteFile (text "C:/Users/user/Desktop/Half-Life  Source.url") t
           ∈ events (create_games_shortcut sample_system 70
                       (<[70 := half_life]> ∅) desktop)
         ∧ write_raises sample_system
             (text "C:/Users/user/Desktop/Half-Life  Source.url") t = None.
Proof.
  assert (outcome_of (create_games_shortcut sample_system 70
                        (<[70 := half_life]> ∅) desktop)
          = Returns (Some (text "C:/Users/user/Desktop/Half-Life  Source.url")))
    as H by (vm_compute; reflexivity).
  split; [exact H|].
  exact (create_games_shortcut_returns sample_system 70
           (<[70 := half_life]> ∅) desktop _ H).
Defined.

(** ** From the file to the shortcut *)

(** The store read from a laid out buffer, for the fuel of its length. *)
Lemma read_appinfo_layout universe string_table_offset apps trailer fuel :
  let buf := layout universe string_table_offset apps trailer in
  0 ≤ universe < 2 ^ 32 →
  0 ≤ string_table_offset < 2 ^ 64 →
  Forall well_formed_app apps →
  16 + string_table_offset + 4 ≤ Z.of_nat (length buf) < 2 ^ 63 →
  Forall (λ a, decodable (binary_content a)) apps →
  (length buf ≤ fuel)%nat →
  read_appinfo fuel buf = Ret (store_of ∅ apps).
Proof.
  intros buf Hu Ho Hwf Hlen Hdec Hfuel.
  set (records := concat (encode_app <$> apps) ++ le_bytes 4 0 ++ trailer).
  assert (buf = (magic_signature ++ le_bytes 4 universe)
                ++ le_bytes 8 string_table_offset ++ records) as Hbuf.
  { unfold buf, layout, records. by rewrite <- !app_assoc. }
  assert (Z.of_nat (length buf) = 16 + Z.of_nat (length records)) as Hl.
  { rewrite Hbuf, !length_app, !length_le_bytes. simpl. lia. }
  assert (le_int (slice buf 8 16) = string_table_offset) as Hsto.
  { rewrite Hbuf, slice_middle, le_int_le_bytes; [done | lia | ..].
    - rewrite length_app, length_le_bytes. simpl. lia.
    - rewrite length_le_bytes. lia. }
  unfold read_appinfo. rewrite read_header_spec; [|by rewrite Hbuf | lia].
  cbv zeta. rewrite Hsto.
  destruct (Z.leb_spec (2 ^ 63) (16 + string_table_offset)); [lia|].
  destruct (Z.ltb_spec (Z.of_nat (length buf))
              (16 + string_table_offset + 4)); [lia|].
  cbn [mbind outcome_bind].
  pose proof (length_concat_encode apps) as [Hn1 Hn2].
  assert (length (concat (encode_app <$> apps)) < length buf)%nat as Hc.
  { unfold records in Hl. rewrite !length_app, length_le_bytes in Hl. lia. }
  apply read_apps_encoded with (trailer := trailer); [lia | | lia |].
  + rewrite Forall_forall in Hwf, Hdec, Hn2.
    apply Forall_forall. intros a Ha. split; [by apply Hwf|].
    split; [by apply Hdec|]. specialize (Hn2 a Ha). simpl in Hn2. lia.
  + assert (buf = (magic_signature ++ le_bytes 4 universe
                     ++ le_bytes 8 string_table_offset) ++ records) as ->.
    { rewrite Hbuf. by rewrite <- !app_assoc. }
    apply drop_app_length'. by rewrite !length_app, !length_le_bytes.
Qed.

(** X11.  In a file that is well formed, has its string count inside
    the buffer and holds only names and icon hashes that are valid UTF-8,
    a record that is the last one with its appid and whose payload lacks
    the icon marker, or the name marker, cannot be given a shortcut: on
    the store that [read_appinfo] returns for the file,
    [create_games_shortcut] raises [TypeError] for this appid when the
    output directory exists, and does not reach the writing of a file. *)
Theorem shortcut_of_record_without_marker (sys : system)
    (universe string_table_offset : Z) (apps : list app) (trailer : bytes)
    (l1 : list app) (a : app) (l2 : list app) (output_dir : str) :
  let buf := layout universe string_table_offset apps trailer in
  0 ≤ universe < 2 ^ 32 →
  0 ≤ string_table_offset < 2 ^ 64 →
  Forall well_formed_app apps →
  16 + string_table_offset + 4 ≤ Z.of_nat (length buf) < 2 ^ 63 →
  Forall (λ a, decodable (binary_content a)) apps →
  apps = l1 ++ a :: l2 → appid a ∉ appid <$> l2 →
  find_index (binary_content a) icon_marker = None
  ∨ find_index (binary_content a) name_marker = None →
  isdir sys output_dir = true →
  ∃ store,
    read_appinfo (length buf) buf = Ret store
    ∧ outcome_of (create_games_shortcut sys (appid a) store output_dir)
      = Raises TypeError
    ∧ ∀ path t,
        WriteFile path t
          ∉ events (create_games_shortcut sys (appid a) store output_dir).
Proof.
  intros buf Hu Ho Hwf Hlen Hdec Happs Hlast Hmarker Hdir.
  exists (store_of ∅ apps). split.
  - by apply read_appinfo_layout.
  - apply create_games_shortcut_type_error with (a := decoded a); [|done|].
    + rewrite Happs. by apply store_of_last.
    + unfold decoded, expected_icon_hash, expected_name. cbn [icon_hash name].
      destruct Hmarker as [-> | ->]; [by left | by right].
Qed.

Lemma shortcut_of_record_without_marker_witness :
  ∃ store,
    read_appinfo (length team_fortress) team_fortress = Ret store
    ∧ outcome_of (create_games_shortcut sample_system 440 store desktop)
      = Raises TypeError
    ∧ ∀ path t,
        WriteFile path t
          ∉ events (create_games_shortcut sample_system 440 store desktop).
Proof.
  apply (shortcut_of_record_without_marker sample_system 1 0
           [app_with 440 (name_marker ++ lit "Team Fortress 2" ++ [x00])] []
           [] (app_with 440 (name_marker ++ lit "Team Fortress 2" ++ [x00]))
           [] desktop).
  - lia.
  - lia.
  - constructor; [|constructor].
    split; [apply app_with_encodable; [lia | vm_compute; reflexivity]|].
    split; intros i Hi; vm_compute in Hi; [|discriminate].
    injection Hi as <-. do 15 right. left.
  - vm_compute. split; [discriminate | reflexivity].
  - constructor; [|constructor].
    split; intros i Hi; vm_compute in Hi; [|discriminate].
    injection Hi as <-. vm_compute. eexists. reflexivity.
  - reflexivity.
  - intros H. by apply elem_of_nil in H.
  - left. vm_compute. reflexivity.
  - reflexivity.
Defined.
